(** * Squash streams: the operation engine of [squash/stream.c]

    A shallow embedding of [squash_stream_init], [squash_stream_newa],
    [squash_stream_process_internal] and the three public drivers
    [squash_stream_process], [squash_stream_flush] and
    [squash_stream_finish], followed by the properties of the stream
    state machine that the documentation of the library relies on.

    Conventions of the embedding.
    - [size_t] is the 64-bit unsigned type of an LP64 target: a [Z] in
      [0, 2^64), with the wrap-around of every [+=] and [-] written out.
    - Pointers are [NULL] or a block and an offset.  The engine never
      reads the bytes behind [next_in] or [next_out]; it only looks at
      the cursor fields, so memory contents are not part of the model.
      The address of the local [output_sbb] is the block [OutputSbb].
    - The plug-in entry points are nullable function pointers taking the
      stream: [option (SquashStream -> SquashStream * SquashStatus)].
      Whatever a plug-in keeps behind the stream object (the fields of
      the C struct that extends [SquashStream]) is the field [ext].
    - The local [res] is declared without an initialiser; it is an
      [option SquashStatus] whose [None] is the indeterminate value, and
      a comparison of an indeterminate [res] ends the run with
      [ReadsIndeterminate].
    - The three [assert]s at the head of the engine are preconditions:
      a stream always carries a codec, and a codec always has its table
      of functions. *)

From Stdlib Require Import ZArith List Bool Lia String Sorted.
Import ListNotations.
Local Open Scope Z_scope.

(** ** Machine integers and pointers *)

Definition SIZE_BITS : Z := 64.
Definition SIZE_MAX : Z := 2 ^ SIZE_BITS - 1.

(** Reduction of an integer to a [size_t]. *)
Definition size_wrap (z : Z) : Z := z mod 2 ^ SIZE_BITS.

(** [a - b] and [a + b] on [size_t]. *)
Definition size_sub (a b : Z) : Z := size_wrap (a - b).
Definition size_add (a b : Z) : Z := size_wrap (a + b).

Definition in_size_t (z : Z) : Prop := 0 <= z <= SIZE_MAX.

Inductive block : Type :=
| OutputSbb                 (* the local [uint8_t output_sbb] of the engine *)
| Region (id : positive).   (* any other object *)

Inductive pointer : Type :=
| NULL
| Ptr (b : block) (ofs : Z).

Definition is_null (p : pointer) : bool :=
  match p with NULL => true | Ptr _ _ => false end.

(** ** Enumerations *)

(** Modelled from the spec: the enumeration [SquashStatus] is declared
    in a header of the library and not in [stream.c].  The engine
    names six of its members; every other member is a failure code that
    it passes through unchanged. *)
Inductive SquashStatus : Type :=
| SQUASH_OK
| SQUASH_PROCESSING
| SQUASH_END_OF_STREAM
| SQUASH_BUFFER_FULL
| SQUASH_STATE
| SQUASH_INVALID_OPERATION
| SQUASH_FAILURE (code : Z).

Definition status_eqb (a b : SquashStatus) : bool :=
  match a, b with
  | SQUASH_OK, SQUASH_OK => true
  | SQUASH_PROCESSING, SQUASH_PROCESSING => true
  | SQUASH_END_OF_STREAM, SQUASH_END_OF_STREAM => true
  | SQUASH_BUFFER_FULL, SQUASH_BUFFER_FULL => true
  | SQUASH_STATE, SQUASH_STATE => true
  | SQUASH_INVALID_OPERATION, SQUASH_INVALID_OPERATION => true
  | SQUASH_FAILURE x, SQUASH_FAILURE y => x =? y
  | _, _ => false
  end.

(** Modelled from the spec: the enumeration [SquashStreamState] is
    declared in the same header; its members are ordered
    Idle < Running < Flushing < Finishing < Finished. *)
Inductive SquashStreamState : Type :=
| SQUASH_STREAM_STATE_IDLE
| SQUASH_STREAM_STATE_RUNNING
| SQUASH_STREAM_STATE_FLUSHING
| SQUASH_STREAM_STATE_FINISHING
| SQUASH_STREAM_STATE_FINISHED.

Definition state_rank (st : SquashStreamState) : Z :=
  match st with
  | SQUASH_STREAM_STATE_IDLE => 0
  | SQUASH_STREAM_STATE_RUNNING => 1
  | SQUASH_STREAM_STATE_FLUSHING => 2
  | SQUASH_STREAM_STATE_FINISHING => 3
  | SQUASH_STREAM_STATE_FINISHED => 4
  end.

(** [a > b] on stream states. *)
Definition state_gtb (a b : SquashStreamState) : bool :=
  state_rank b <? state_rank a.

Definition state_eqb (a b : SquashStreamState) : bool :=
  state_rank a =? state_rank b.

Inductive SquashStreamType : Type :=
| SQUASH_STREAM_COMPRESS
| SQUASH_STREAM_DECOMPRESS.

(** ** The stream object *)

(** Codecs and option groups are referred to by handle; the engine never
    looks inside either. *)
Definition SquashCodec : Type := positive.
Definition SquashOptions : Type := pointer.
Definition SquashDestroyNotify : Type := pointer.

Section Model.

(** [Ext]: what a plug-in stores behind the stream object.
    [SquashObject]: the base object, owned by the reference counting
    code. *)
Context {Ext SquashObject : Type}.

Record SquashStream : Type := mkStream {
  base_object : SquashObject;
  priv : pointer;
  next_in : pointer;
  avail_in : Z;
  total_in : Z;
  next_out : pointer;
  avail_out : Z;
  total_out : Z;
  codec : SquashCodec;
  options : SquashOptions;
  stream_type : SquashStreamType;
  state : SquashStreamState;
  user_data : pointer;
  destroy_user_data : SquashDestroyNotify;
  ext : Ext
}.

Definition set_next_in (p : pointer) (s : SquashStream) : SquashStream :=
  mkStream (base_object s) (priv s) p (avail_in s) (total_in s)
           (next_out s) (avail_out s) (total_out s) (codec s) (options s)
           (stream_type s) (state s) (user_data s) (destroy_user_data s)
           (ext s).

Definition set_avail_in (v : Z) (s : SquashStream) : SquashStream :=
  mkStream (base_object s) (priv s) (next_in s) v (total_in s)
           (next_out s) (avail_out s) (total_out s) (codec s) (options s)
           (stream_type s) (state s) (user_data s) (destroy_user_data s)
           (ext s).

Definition set_avail_out (v : Z) (s : SquashStream) : SquashStream :=
  mkStream (base_object s) (priv s) (next_in s) (avail_in s) (total_in s)
           (next_out s) v (total_out s) (codec s) (options s)
           (stream_type s) (state s) (user_data s) (destroy_user_data s)
           (ext s).

Definition set_next_out (p : pointer) (s : SquashStream) : SquashStream :=
  mkStream (base_object s) (priv s) (next_in s) (avail_in s) (total_in s)
           p (avail_out s) (total_out s) (codec s) (options s)
           (stream_type s) (state s) (user_data s) (destroy_user_data s)
           (ext s).

Definition set_total_in (v : Z) (s : SquashStream) : SquashStream :=
  mkStream (base_object s) (priv s) (next_in s) (avail_in s) v
           (next_out s) (avail_out s) (total_out s) (codec s) (options s)
           (stream_type s) (state s) (user_data s) (destroy_user_data s)
           (ext s).

Definition set_total_out (v : Z) (s : SquashStream) : SquashStream :=
  mkStream (base_object s) (priv s) (next_in s) (avail_in s) (total_in s)
           (next_out s) (avail_out s) v (codec s) (options s)
           (stream_type s) (state s) (user_data s) (destroy_user_data s)
           (ext s).

Definition set_state (st : SquashStreamState) (s : SquashStream)
  : SquashStream :=
  mkStream (base_object s) (priv s) (next_in s) (avail_in s) (total_in s)
           (next_out s) (avail_out s) (total_out s) (codec s) (options s)
           (stream_type s) st (user_data s) (destroy_user_data s)
           (ext s).

(** An entry point of a plug-in: it works on the stream in place and
    answers with a status. *)
Definition StreamFunc : Type := SquashStream -> SquashStream * SquashStatus.

(** The three nullable entries of [SquashCodecFuncs] the engine reads. *)
Record SquashCodecFuncs : Type := mkFuncs {
  process_stream : option StreamFunc;
  flush_stream : option StreamFunc;
  finish_stream : option StreamFunc
}.

(** ** Collaborators that live in other files of the library *)

Variable squash_codec_get_funcs : SquashCodec -> SquashCodecFuncs.
Variable squash_buffer_stream_process : StreamFunc.
Variable squash_buffer_stream_finish : StreamFunc.
(** [squash_object_init] fills the base object in; [squash_object_ref]
    takes a reference and hands the pointer back. *)
Variable squash_object_init :
  SquashObject -> bool -> SquashDestroyNotify -> SquashObject.
Variable squash_object_ref : SquashOptions -> SquashOptions.

(** ** [squash_stream_init] *)

(** [stream] is the memory the caller allocated: every field of the
    stream proper is overwritten, the fields of the extending struct
    are left alone. *)
Definition squash_stream_init (stream : SquashStream) (codec : SquashCodec)
    (stream_type : SquashStreamType) (options : SquashOptions)
    (destroy_notify : SquashDestroyNotify) : SquashStream :=
  mkStream (squash_object_init (base_object stream) false destroy_notify)
           NULL
           NULL 0 0
           NULL 0 0
           codec
           (if is_null options then NULL else squash_object_ref options)
           stream_type
           SQUASH_STREAM_STATE_IDLE
           NULL
           NULL
           (ext stream).

(** ** [squash_stream_newa] *)

(** The body is the single statement [return NULL;]. *)
Definition squash_stream_newa (codec : string)
    (stream_type : SquashStreamType) (keys values : list string)
  : option SquashStream :=
  None.

(** ** [squash_stream_process_internal] *)

(** Which function the engine called. *)
Inductive Callee : Type :=
| ProcessStream
| FlushStream
| FinishStream
| BufferStreamProcess
| BufferStreamFinish.

(** One call across the plug-in boundary: the stream handed over, the
    stream as the callee left it, and the status it returned. *)
Record Call : Type := mkCall {
  callee : Callee;
  passed : SquashStream;
  handed_back : SquashStream;
  returned : SquashStatus
}.

(** The locals of the engine that change inside the loop, the stream
    they work on, and the calls made so far (oldest first). *)
Record Frame : Type := mkFrame {
  strm : SquashStream;
  res : option SquashStatus;
  current_operation : Z;
  calls : list Call
}.

Definition assign_res (r : SquashStatus) (f : Frame) : Frame :=
  mkFrame (strm f) (Some r) (current_operation f) (calls f).

Definition with_stream (s : SquashStream) (f : Frame) : Frame :=
  mkFrame s (res f) (current_operation f) (calls f).

Definition next_operation (f : Frame) : Frame :=
  mkFrame (strm f) (res f) (current_operation f + 1) (calls f).

(** [res = fn (stream);] *)
Definition invoke (who : Callee) (fn : StreamFunc) (f : Frame) : Frame :=
  let (s', r) := fn (strm f) in
  mkFrame s' (Some r) (current_operation f)
          (calls f ++ [mkCall who (strm f) s' r]).

(** The [if / else if] chain that opens the body of the loop. *)
Definition dispatch (funcs : SquashCodecFuncs) (operation : Z) (f : Frame)
  : Frame :=
  if current_operation f =? 0 then
    (* Process *)
    if (avail_in (strm f) =? 0)
       && state_eqb (state (strm f)) SQUASH_STREAM_STATE_IDLE then
      assign_res SQUASH_OK f
    else
      match process_stream funcs with
      | Some fn => invoke ProcessStream fn f
      | None => invoke BufferStreamProcess squash_buffer_stream_process f
      end
  else if current_operation f =? 1 then
    (* Flush *)
    if current_operation f =? operation then
      match flush_stream funcs with
      | Some fn => invoke FlushStream fn f
      | None => assign_res SQUASH_OK f
      end
    else f
  else if current_operation f =? 2 then
    (* Finish *)
    let f1 :=
      match finish_stream funcs with
      | Some fn => invoke FinishStream fn f
      | None =>
          match process_stream funcs with
          | None => invoke BufferStreamFinish squash_buffer_stream_finish f
          | Some _ => assign_res SQUASH_INVALID_OPERATION f
          end
      end in
    match res f1 with
    | Some SQUASH_END_OF_STREAM => assign_res SQUASH_OK f1
    | _ => f1
    end
  else f.

(** "Check our internal single byte buffer": [next_out] is the local
    that holds the caller's output pointer while the probe is in
    place, and [NULL] otherwise. *)
Definition check_sbb (next_out : pointer) (f : Frame) : Frame :=
  if negb (is_null next_out) then
    if avail_out (strm f) =? 0 then assign_res SQUASH_BUFFER_FULL f
    else f
  else f.

(** The [switch] of the [SQUASH_PROCESSING] branch; it has no
    [default]. *)
Definition in_progress_state (current_operation : Z) (s : SquashStream)
  : SquashStream :=
  if current_operation =? 0 then set_state SQUASH_STREAM_STATE_RUNNING s
  else if current_operation =? 1 then
    set_state SQUASH_STREAM_STATE_FLUSHING s
  else if current_operation =? 2 then
    set_state SQUASH_STREAM_STATE_FINISHING s
  else s.

(** How one turn of the loop ends. *)
Inductive Step : Type :=
| Continue (f : Frame)       (* falls through to the loop condition *)
| Break (f : Frame)          (* [break] *)
| Indeterminate (f : Frame). (* [res] compared before any assignment *)

(** The chain of comparisons on [res] that closes the body. *)
Definition interpret (f : Frame) : Step :=
  match res f with
  | None => Indeterminate f
  | Some r =>
      if status_eqb r SQUASH_PROCESSING then
        Break (with_stream
                 (in_progress_state (current_operation f) (strm f)) f)
      else if status_eqb r SQUASH_END_OF_STREAM
              || ((current_operation f =? 2) && status_eqb r SQUASH_OK) then
        Break (next_operation
                 (with_stream
                    (set_state SQUASH_STREAM_STATE_FINISHED (strm f)) f))
      else if status_eqb r SQUASH_OK then
        Continue (next_operation
                    (with_stream
                       (set_state SQUASH_STREAM_STATE_IDLE (strm f)) f))
      else Break f
  end.

Definition iteration (funcs : SquashCodecFuncs) (operation : Z)
    (next_out : pointer) (f : Frame) : Step :=
  interpret (check_sbb next_out (dispatch funcs operation f)).

(** How the loop as a whole ends. *)
Inductive LoopExit : Type :=
| Exits (f : Frame)          (* control reaches the code after the loop *)
| Undefined (f : Frame)      (* indeterminate [res] was read *)
| Unfinished (f : Frame).    (* the bound on the turns was too small *)

(** [while (current_operation <= operation) { ... }], unrolled at most
    [turns] times. *)
Fixpoint escalate (turns : nat) (funcs : SquashCodecFuncs) (operation : Z)
    (next_out : pointer) (f : Frame) : LoopExit :=
  if current_operation f <=? operation then
    match turns with
    | O => Unfinished f
    | S turns' =>
        match iteration funcs operation next_out f with
        | Continue f' => escalate turns' funcs operation next_out f'
        | Break f' => Exits f'
        | Indeterminate f' => Undefined f'
        end
    end
  else Exits f.

(** What a call of the engine amounts to. *)
Inductive Outcome : Type :=
| Returns (status : SquashStatus) (s : SquashStream)
| ReadsIndeterminate (s : SquashStream)
| OutOfTurns.

(** The [switch] on [stream->state] that sets [current_operation]. *)
Definition operation_of_state (st : SquashStreamState) : Z :=
  match st with
  | SQUASH_STREAM_STATE_IDLE
  | SQUASH_STREAM_STATE_RUNNING => 0
  | SQUASH_STREAM_STATE_FLUSHING => 1
  | SQUASH_STREAM_STATE_FINISHING => 2
  | SQUASH_STREAM_STATE_FINISHED => 3
  end.

(** The guard in front of [return SQUASH_STATE;]. *)
Definition already_past (operation : Z) (st : SquashStreamState) : bool :=
  ((operation =? 0) && state_gtb st SQUASH_STREAM_STATE_RUNNING)
  || ((operation =? 1) && state_gtb st SQUASH_STREAM_STATE_FLUSHING)
  || ((operation =? 2) && state_gtb st SQUASH_STREAM_STATE_FINISHING).

(** The statements between the loop and [return res;]. *)
Definition epilogue (avail_in0 avail_out0 : Z) (next_out : pointer)
    (s : SquashStream) : SquashStream :=
  let s1 :=
    if negb (is_null next_out) then set_next_out next_out (set_avail_out 0 s)
    else s in
  let s2 :=
    set_total_in (size_add (total_in s1) (size_sub avail_in0 (avail_in s1)))
                 s1 in
  set_total_out (size_add (total_out s2) (size_sub avail_out0 (avail_out s2)))
                s2.

(** The declaration of the local [next_out] and the conditional that
    puts the probe in place: the value the local ends up with, and the
    stream as the conditional leaves it. *)
Definition saved_next_out (stream : SquashStream) : pointer :=
  if avail_out stream =? 0 then next_out stream else NULL.

Definition place_probe (stream : SquashStream) : SquashStream :=
  if avail_out stream =? 0
  then set_next_out (Ptr OutputSbb 0) (set_avail_out 1 stream)
  else stream.

(** From the end of the loop to [return res;].  The result pairs the
    calls made across the plug-in boundary with the outcome. *)
Definition conclude (avail_in0 avail_out0 : Z) (next_out : pointer)
    (e : LoopExit) : list Call * Outcome :=
  match e with
  | Exits f =>
      match res f with
      | Some r =>
          (calls f, Returns r (epilogue avail_in0 avail_out0 next_out (strm f)))
      | None => (calls f, ReadsIndeterminate (strm f))
      end
  | Undefined f => (calls f, ReadsIndeterminate (strm f))
  | Unfinished f => (calls f, OutOfTurns)
  end.

Definition squash_stream_process_internal (stream : SquashStream)
    (operation : Z) : list Call * Outcome :=
  let funcs := squash_codec_get_funcs (codec stream) in
  if (operation =? 1)
     && match flush_stream funcs with None => true | Some _ => false end
  then ([], Returns SQUASH_INVALID_OPERATION stream)
  else if already_past operation (state stream)
  then ([], Returns SQUASH_STATE stream)
  else
    let current_operation := operation_of_state (state stream) in
    if operation <? current_operation
    then ([], Returns SQUASH_STATE stream)
    else
      let avail_in0 := avail_in stream in
      let avail_out0 := avail_out stream in
      let next_out0 := saved_next_out stream in
      conclude avail_in0 avail_out0 next_out0
        (escalate (Z.to_nat (operation + 1 - current_operation))
                  funcs operation next_out0
                  (mkFrame (place_probe stream) None current_operation [])).

(** ** The public drivers *)

Definition squash_stream_process (stream : SquashStream)
  : list Call * Outcome :=
  squash_stream_process_internal stream 0.

Definition squash_stream_flush (stream : SquashStream)
  : list Call * Outcome :=
  squash_stream_process_internal stream 1.

Definition squash_stream_finish (stream : SquashStream)
  : list Call * Outcome :=
  squash_stream_process_internal stream 2.

(** The three drivers under one name. *)
Inductive Driver : Type := Process | Flush | Finish.

Definition drive (which : Driver) (stream : SquashStream)
  : list Call * Outcome :=
  match which with
  | Process => squash_stream_process stream
  | Flush => squash_stream_flush stream
  | Finish => squash_stream_finish stream
  end.

End Model.

Arguments SquashStream : clear implicits.
Arguments SquashCodecFuncs : clear implicits.
Arguments StreamFunc : clear implicits.
Arguments Call : clear implicits.
Arguments Frame : clear implicits.
Arguments Outcome : clear implicits.

(** ** Plug-ins and streams to run the engine on

    Three small plug-ins over a stream with no extension and a base
    object with no content.  They only move the cursors, the way a codec
    does when it reads and writes. *)

Definition PlainStream : Type := SquashStream unit unit.

Definition advance (p : pointer) (n : Z) : pointer :=
  match p with
  | NULL => NULL
  | Ptr b ofs => Ptr b (ofs + n)
  end.

(** Reads all the input there is, writes nothing, answers [r]. *)
Definition read_all (r : SquashStatus) : StreamFunc unit unit :=
  fun s =>
    (set_avail_in 0 (set_next_in (advance (next_in s) (avail_in s)) s), r).

(** Writes one byte if there is room for it, answers [r]. *)
Definition write_one (r : SquashStatus) : StreamFunc unit unit :=
  fun s =>
    if 0 <? avail_out s then
      (set_avail_out (avail_out s - 1)
         (set_next_out (advance (next_out s) 1) s), r)
    else (s, r).

(** Touches nothing, answers [r]. *)
Definition answer (r : SquashStatus) : StreamFunc unit unit :=
  fun s => (s, r).

(** Codec 1 has [process_stream] only.  Codec 2 has all three entries:
    its flush asks to be called again and its finish writes a trailer
    byte and reports the end of the stream.  Codec 3 writes a byte from
    its [process_stream].  Every other codec has no entry at all and goes
    through the buffering adapter. *)
Definition sample_funcs (c : SquashCodec) : SquashCodecFuncs unit unit :=
  match c with
  | 1%positive => mkFuncs (Some (read_all SQUASH_OK)) None None
  | 2%positive =>
      mkFuncs (Some (read_all SQUASH_OK))
              (Some (answer SQUASH_PROCESSING))
              (Some (write_one SQUASH_END_OF_STREAM))
  | 3%positive =>
      mkFuncs (Some (write_one SQUASH_OK)) None (Some (answer SQUASH_OK))
  | _ => mkFuncs None None None
  end.

Definition sample_buffer_process : StreamFunc unit unit := read_all SQUASH_OK.
Definition sample_buffer_finish : StreamFunc unit unit := write_one SQUASH_OK.

Definition sample_object_init (o : unit) (is_floating : bool)
    (destroy_notify : SquashDestroyNotify) : unit := o.
Definition sample_object_ref (o : SquashOptions) : SquashOptions := o.

Definition run_sample (s : PlainStream) (operation : Z)
  : list (Call unit unit) * Outcome unit unit :=
  squash_stream_process_internal sample_funcs sample_buffer_process
                                 sample_buffer_finish s operation.

(** A stream of codec [c] in state [st] whose caller supplied [n_in]
    bytes of input at region 1 and [n_out] bytes of room at [out]. *)
Definition sample_stream (c : SquashCodec) (st : SquashStreamState)
    (n_in : Z) (out : pointer) (n_out : Z) (t_in t_out : Z) : PlainStream :=
  mkStream tt NULL (Ptr (Region 1) 0) n_in t_in out n_out t_out c NULL
           SQUASH_STREAM_COMPRESS st NULL NULL tt.

(** The stream [squash_stream_init] makes out of fresh memory. *)
Definition fresh_stream (c : SquashCodec) : PlainStream :=
  squash_stream_init sample_object_init sample_object_ref
    (sample_stream 1%positive SQUASH_STREAM_STATE_FINISHED 7 NULL 7 7 7)
    c SQUASH_STREAM_COMPRESS NULL NULL.

Definition sample_drive (which : Driver) (s : PlainStream)
  : list (Call unit unit) * Outcome unit unit :=
  drive sample_funcs sample_buffer_process sample_buffer_finish which s.

(** ** Contracts the engine expects of its plug-ins *)

Section Contracts.

Context {Ext SquashObject : Type}.

(** The entry point leaves the totals alone ("managed internally by
    Squash and should not be modified by consumers or plugins"). *)
Definition keeps_totals (fn : StreamFunc Ext SquashObject) : Prop :=
  forall s,
    total_in (fst (fn s)) = total_in s
    /\ total_out (fst (fn s)) = total_out s.

(** The entry point only ever uses input and room up: the remaining
    lengths stay within [0, what it was given]. *)
Definition only_consumes (fn : StreamFunc Ext SquashObject) : Prop :=
  forall s,
    (0 <= avail_in s -> 0 <= avail_in (fst (fn s)) <= avail_in s)
    /\ (0 <= avail_out s -> 0 <= avail_out (fst (fn s)) <= avail_out s).

Definition well_behaved (fn : StreamFunc Ext SquashObject) : Prop :=
  keeps_totals fn /\ only_consumes fn.

Definition entry_well_behaved (e : option (StreamFunc Ext SquashObject))
  : Prop :=
  match e with
  | Some fn => well_behaved fn
  | None => True
  end.

Definition funcs_well_behaved (funcs : SquashCodecFuncs Ext SquashObject)
  : Prop :=
  entry_well_behaved (process_stream funcs)
  /\ entry_well_behaved (flush_stream funcs)
  /\ entry_well_behaved (finish_stream funcs).

(** The fields of a stream that are [size_t] hold a [size_t]. *)
Definition counters_in_range (s : SquashStream Ext SquashObject) : Prop :=
  in_size_t (avail_in s) /\ in_size_t (avail_out s)
  /\ in_size_t (total_in s) /\ in_size_t (total_out s).

(** The counters of the stream inside the loop, against the stream [s]
    the caller passed: totals untouched, remaining lengths no larger
    than what the loop started from. *)
Definition counters_below (s x : SquashStream Ext SquashObject) : Prop :=
  total_in x = total_in s
  /\ total_out x = total_out s
  /\ 0 <= avail_in x <= avail_in s
  /\ 0 <= avail_out x <= avail_out (place_probe s).

(** The statuses left to a finish call on a codec that has a process
    entry point and no finish entry point: the two refusals of the
    engine, the verdict of the probe, or a status other than [SQUASH_OK]
    that one of the calls in [made] returned. *)
Definition finish_refused (made : list (Call Ext SquashObject))
    (r : SquashStatus) : Prop :=
  r = SQUASH_STATE
  \/ r = SQUASH_INVALID_OPERATION
  \/ r = SQUASH_BUFFER_FULL
  \/ (r <> SQUASH_OK /\ In r (map returned made)).

(** Every call in [made] went to the codec's process entry point. *)
Definition only_process_called (made : list (Call Ext SquashObject)) : Prop :=
  Forall (fun c => callee c = ProcessStream) made.

(** No call in [made] went to the codec's finish entry point. *)
Definition no_finish_called (made : list (Call Ext SquashObject)) : Prop :=
  Forall (fun c => callee c <> FinishStream) made.

(** No call in [made] left the output room at 0. *)
Definition room_left (made : list (Call Ext SquashObject)) : Prop :=
  Forall (fun c => avail_out (handed_back c) <> 0) made.

End Contracts.

(** ** The rest of [stream.c]: destruction and the constructors *)

Section Lifecycle.

Context {Ext SquashObject : Type}.

(** What [squash_stream_destroy] does outside the stream object, in the
    order it does it. *)
Inductive Effect : Type :=
| UserDataDestroyed (notify : SquashDestroyNotify) (data : pointer)
                                (* [s->destroy_user_data (s->user_data)] *)
| ObjectUnref (obj : SquashOptions)   (* [squash_object_unref (s->options)] *)
| ObjectDestroy.                      (* [squash_object_destroy (stream)] *)

Definition set_options (o : SquashOptions)
    (s : SquashStream Ext SquashObject) : SquashStream Ext SquashObject :=
  mkStream (base_object s) (priv s) (next_in s) (avail_in s) (total_in s)
           (next_out s) (avail_out s) (total_out s) (codec s) o
           (stream_type s) (state s) (user_data s) (destroy_user_data s)
           (ext s).

(** [squash_object_unref] drops a reference and answers with the pointer
    to store back. *)
Variable squash_object_unref : SquashOptions -> SquashOptions.

(** ** [squash_stream_destroy] *)

Definition squash_stream_destroy (stream : SquashStream Ext SquashObject)
  : SquashStream Ext SquashObject * list Effect :=
  let e1 :=
    if negb (is_null (destroy_user_data stream))
       && negb (is_null (user_data stream))
    then [UserDataDestroyed (destroy_user_data stream) (user_data stream)]
    else [] in
  let (s1, e2) :=
    if negb (is_null (options stream))
    then (set_options (squash_object_unref (options stream)) stream,
          [ObjectUnref (options stream)])
    else (stream, []) in
  (s1, e1 ++ e2 ++ [ObjectDestroy]).

(** ** [squash_stream_new_with_options], [squash_stream_newv],
       [squash_stream_new] *)

(** The registry, the option parser and the codec's own constructor live
    in other files.  A [NULL] result is [None] where the result is a
    codec or a stream; option groups stay pointers, as [NULL] is a valid
    argument of [squash_stream_new_with_options]. *)
Variable squash_get_codec : string -> option SquashCodec.
Variable squash_options_newv : SquashCodec -> list string -> SquashOptions.
Variable squash_codec_create_stream_with_options :
  SquashCodec -> SquashStreamType -> SquashOptions ->
  option (SquashStream Ext SquashObject).

Definition squash_stream_new_with_options (codec : string)
    (stream_type : SquashStreamType) (options : SquashOptions)
  : option (SquashStream Ext SquashObject) :=
  match squash_get_codec codec with
  | Some codec_real =>
      squash_codec_create_stream_with_options codec_real stream_type options
  | None => None
  end.

(** The [va_list] is the list of the strings it yields. *)
Definition squash_stream_newv (codec : string)
    (stream_type : SquashStreamType) (options : list string)
  : option (SquashStream Ext SquashObject) :=
  match squash_get_codec codec with
  | None => None
  | Some codec_real =>
      let opts := squash_options_newv codec_real options in
      if is_null opts then None
      else squash_codec_create_stream_with_options codec_real stream_type opts
  end.

Definition squash_stream_new (codec : string)
    (stream_type : SquashStreamType) (options_list : list string)
  : option (SquashStream Ext SquashObject) :=
  squash_stream_newv codec stream_type options_list.

End Lifecycle.

(** ** The calling protocol *)

Section Protocol.

Context {Ext SquashObject : Type}.

(** The [operation] each driver passes to the engine. *)
Definition driver_operation (which : Driver) : Z :=
  match which with
  | Process => 0
  | Flush => 1
  | Finish => 2
  end.

(** The level of the loop a callee belongs to. *)
Definition callee_level (who : Callee) : Z :=
  match who with
  | ProcessStream | BufferStreamProcess => 0
  | FlushStream => 1
  | FinishStream | BufferStreamFinish => 2
  end.

(** Which calls a request may make on a codec with the entry points
    [funcs]. *)
Definition call_expected (funcs : SquashCodecFuncs Ext SquashObject)
    (which : Driver) (c : Call Ext SquashObject) : Prop :=
  match callee c with
  | ProcessStream => process_stream funcs <> None
  | BufferStreamProcess => process_stream funcs = None
  | FlushStream => which = Flush /\ flush_stream funcs <> None
  | FinishStream => which = Finish /\ finish_stream funcs <> None
  | BufferStreamFinish =>
      which = Finish /\ finish_stream funcs = None
      /\ process_stream funcs = None
  end.

(** The state a request leaves behind, by the status it returns. *)
Definition state_after (which : Driver) (r : SquashStatus)
    (st : SquashStreamState) : Prop :=
  match r with
  | SQUASH_OK =>
      st = match which with
           | Finish => SQUASH_STREAM_STATE_FINISHED
           | _ => SQUASH_STREAM_STATE_IDLE
           end
  | SQUASH_END_OF_STREAM => st = SQUASH_STREAM_STATE_FINISHED
  | SQUASH_PROCESSING =>
      st = SQUASH_STREAM_STATE_RUNNING
      \/ (which = Flush /\ st = SQUASH_STREAM_STATE_FLUSHING)
      \/ (which = Finish /\ st = SQUASH_STREAM_STATE_FINISHING)
  | _ => True
  end.

(** A condition on entry points, asked of every entry point a call can
    reach: the three of the codec and the two of the buffering
    adapter. *)
Definition plugins_satisfy (Q : StreamFunc Ext SquashObject -> Prop)
    (funcs : SquashCodecFuncs Ext SquashObject)
    (buffer_process buffer_finish : StreamFunc Ext SquashObject) : Prop :=
  (forall fn, process_stream funcs = Some fn -> Q fn)
  /\ (forall fn, flush_stream funcs = Some fn -> Q fn)
  /\ (forall fn, finish_stream funcs = Some fn -> Q fn)
  /\ Q buffer_process
  /\ Q buffer_finish.

(** The entry point leaves [state] and [codec] alone. *)
Definition keeps_state (fn : StreamFunc Ext SquashObject) : Prop :=
  forall s, state (fst (fn s)) = state s /\ codec (fst (fn s)) = codec s.

(** The entry point leaves alone what [squash_stream_destroy] looks at,
    and the codec. *)
Definition keeps_owner_fields (fn : StreamFunc Ext SquashObject) : Prop :=
  forall s,
    options (fst (fn s)) = options s
    /\ user_data (fst (fn s)) = user_data s
    /\ destroy_user_data (fst (fn s)) = destroy_user_data s.

(** The fields of [y] the engine has no business with are those of [x]:
    everything but [state], the totals and the output cursor. *)
Definition untouched_by_engine (x y : SquashStream Ext SquashObject) : Prop :=
  base_object y = base_object x
  /\ priv y = priv x
  /\ next_in y = next_in x
  /\ avail_in y = avail_in x
  /\ codec y = codec x
  /\ options y = options x
  /\ stream_type y = stream_type x
  /\ user_data y = user_data x
  /\ destroy_user_data y = destroy_user_data x
  /\ ext y = ext x.

(** The stream as the last entry point called left it, or the caller's
    stream [s] if none was called. *)
Definition last_handed_back (made : list (Call Ext SquashObject))
    (s : SquashStream Ext SquashObject) : SquashStream Ext SquashObject :=
  last (map handed_back made) s.

(** What the caller does between calls: "adding data to the [avail_in]
    field and removing data from the [avail_out] field". *)
Definition supply (input : pointer) (n_in : Z) (output : pointer) (n_out : Z)
    (s : SquashStream Ext SquashObject) : SquashStream Ext SquashObject :=
  set_next_in input
    (set_avail_in n_in (set_next_out output (set_avail_out n_out s))).

Inductive Action : Type :=
| Drive (which : Driver)
| Supply (input : pointer) (n_in : Z) (output : pointer) (n_out : Z).

Variable squash_codec_get_funcs :
  SquashCodec -> SquashCodecFuncs Ext SquashObject.
Variable squash_buffer_stream_process : StreamFunc Ext SquashObject.
Variable squash_buffer_stream_finish : StreamFunc Ext SquashObject.

(** A session: the stream after the actions, or [None] as soon as a
    call does not return. *)
Fixpoint session (acts : list Action) (s : SquashStream Ext SquashObject)
  : option (SquashStream Ext SquashObject) :=
  match acts with
  | [] => Some s
  | Supply input n_in output n_out :: rest =>
      session rest (supply input n_in output n_out s)
  | Drive which :: rest =>
      match snd (drive squash_codec_get_funcs squash_buffer_stream_process
                       squash_buffer_stream_finish which s) with
      | Returns _ s' => session rest s'
      | _ => None
      end
  end.

End Protocol.

(** ** A registry and an option parser to run the constructors on *)

(** The registry knows one name.  The parser makes an option group out
    of a non-empty list and answers [NULL] to an empty one.  The codec's
    constructor initialises zeroed memory. *)
Definition sample_get_codec (name : string) : option SquashCodec :=
  if String.eqb name "copy" then Some 1%positive else None.

Definition sample_options_newv (c : SquashCodec) (l : list string)
  : SquashOptions :=
  match l with
  | [] => NULL
  | _ :: _ => Ptr (Region 9) 0
  end.

Definition sample_create_stream (c : SquashCodec) (ty : SquashStreamType)
    (o : SquashOptions) : option PlainStream :=
  Some (squash_stream_init sample_object_init sample_object_ref
          (mkStream tt NULL NULL 0 0 NULL 0 0 c NULL ty
                    SQUASH_STREAM_STATE_IDLE NULL NULL tt)
          c ty o NULL).

Definition sample_object_unref (o : SquashOptions) : SquashOptions := NULL.

(** A codec whose process entry point reads the input and then fails
    with a code of its own. *)
Definition faulty_funcs (c : SquashCodec) : SquashCodecFuncs unit unit :=
  mkFuncs (Some (read_all (SQUASH_FAILURE (-5)))) None None.

(** A caller who has installed user data and a destructor for it. *)
Definition with_user_data (data : pointer) (notify : SquashDestroyNotify)
    (s : PlainStream) : PlainStream :=
  mkStream (base_object s) (priv s) (next_in s) (avail_in s) (total_in s)
           (next_out s) (avail_out s) (total_out s) (codec s) (options s)
           (stream_type s) (state s) data notify (ext s).

(** * Properties *)

Section Properties.

Context {Ext SquashObject : Type}.
Variable squash_codec_get_funcs :
  SquashCodec -> SquashCodecFuncs Ext SquashObject.
Variable squash_buffer_stream_process : StreamFunc Ext SquashObject.
Variable squash_buffer_stream_finish : StreamFunc Ext SquashObject.
Variable squash_object_init :
  SquashObject -> bool -> SquashDestroyNotify -> SquashObject.
Variable squash_object_ref : SquashOptions -> SquashOptions.

Local Abbreviation Stream := (SquashStream Ext SquashObject).
Local Abbreviation engine :=
  (squash_stream_process_internal squash_codec_get_funcs
     squash_buffer_stream_process squash_buffer_stream_finish).
Local Abbreviation process :=
  (squash_stream_process squash_codec_get_funcs
     squash_buffer_stream_process squash_buffer_stream_finish).
Local Abbreviation flush :=
  (squash_stream_flush squash_codec_get_funcs
     squash_buffer_stream_process squash_buffer_stream_finish).
Local Abbreviation finish :=
  (squash_stream_finish squash_codec_get_funcs
     squash_buffer_stream_process squash_buffer_stream_finish).
Local Abbreviation call :=
  (drive squash_codec_get_funcs
     squash_buffer_stream_process squash_buffer_stream_finish).
Local Abbreviation init :=
  (squash_stream_init squash_object_init squash_object_ref).
Local Abbreviation turn :=
  (iteration squash_buffer_stream_process squash_buffer_stream_finish).
Local Abbreviation loop :=
  (escalate squash_buffer_stream_process squash_buffer_stream_finish).

(** ** Requests turned down at the door *)

(** C7.  On a codec with no flush entry point a flush call returns
    [SQUASH_INVALID_OPERATION] whatever the state of the stream; the
    stream object comes back as it was (state, cursors and totals
    included) and nothing was called across the plug-in boundary. *)
Theorem flush_without_flush_entry (s : Stream) :
  flush_stream (squash_codec_get_funcs (codec s)) = None ->
  squash_stream_flush squash_codec_get_funcs
    squash_buffer_stream_process squash_buffer_stream_finish s
  = ([], Returns SQUASH_INVALID_OPERATION s).
Proof.
  intros Hnone.
  unfold squash_stream_flush, squash_stream_process_internal.
  rewrite Hnone. reflexivity.
Qed.

(** C6, as the code has it.  On a stream in state Finished, process
    and finish return [SQUASH_STATE]; flush returns [SQUASH_STATE] when
    the codec has a flush entry point and [SQUASH_INVALID_OPERATION]
    when it has none, because that test comes first.  In all three
    cases the stream object comes back as it was and nothing was
    called. *)
Theorem finished_stream_rejects (s : Stream) :
  state s = SQUASH_STREAM_STATE_FINISHED ->
  squash_stream_process squash_codec_get_funcs
    squash_buffer_stream_process squash_buffer_stream_finish s
  = ([], Returns SQUASH_STATE s)
  /\ squash_stream_finish squash_codec_get_funcs
       squash_buffer_stream_process squash_buffer_stream_finish s
     = ([], Returns SQUASH_STATE s)
  /\ squash_stream_flush squash_codec_get_funcs
       squash_buffer_stream_process squash_buffer_stream_finish s
     = ([], Returns (match flush_stream (squash_codec_get_funcs (codec s)) with
                     | Some _ => SQUASH_STATE
                     | None => SQUASH_INVALID_OPERATION
                     end) s).
Proof.
  intros Hst.
  unfold squash_stream_process, squash_stream_finish, squash_stream_flush,
    squash_stream_process_internal.
  rewrite Hst.
  repeat split; try reflexivity.
  destruct (flush_stream (squash_codec_get_funcs (codec s))); reflexivity.
Qed.

(** C10.  [squash_stream_newa] returns [NULL] for every codec name,
    stream type and pair of option arrays; no stream is ever made. *)
Theorem newa_returns_null (codec_name : string)
    (stream_type : SquashStreamType) (keys values : list string) :
  @squash_stream_newa Ext SquashObject codec_name stream_type keys values
  = None.
Proof. reflexivity. Qed.

(** ** A first call on a stream fresh from [squash_stream_init] *)

(** C5, evaluated on the code.  A process call on a stream that
    [squash_stream_init] has just filled in returns [SQUASH_OK] and
    calls nothing, and [total_in] stays 0; but the caller's [next_out]
    is [NULL], which the engine also uses to mean "no probe in place",
    so the one-byte probe is never taken back: [avail_out] comes back
    as 1, [next_out] points at the engine's own local, and [total_out]
    is [0 - 1] on [size_t], that is [SIZE_MAX]. *)
Theorem process_on_fresh_stream (memory : Stream) (c : SquashCodec)
    (stream_type : SquashStreamType) (opts : SquashOptions)
    (destroy_notify : SquashDestroyNotify) :
  exists s',
    squash_stream_process squash_codec_get_funcs
      squash_buffer_stream_process squash_buffer_stream_finish
      (squash_stream_init squash_object_init squash_object_ref
         memory c stream_type opts destroy_notify)
    = ([], Returns SQUASH_OK s')
    /\ state s' = SQUASH_STREAM_STATE_IDLE
    /\ total_in s' = 0
    /\ total_out s' = SIZE_MAX
    /\ avail_out s' = 1
    /\ next_out s' = Ptr OutputSbb 0.
Proof.
  eexists. split.
  - unfold squash_stream_process, squash_stream_process_internal,
      squash_stream_init.
    cbn. reflexivity.
  - cbn. repeat split; reflexivity.
Qed.

(** ** The loop, one turn at a time *)

Local Abbreviation dispatch' :=
  (dispatch squash_buffer_stream_process squash_buffer_stream_finish).

Lemma invoke_spec (who : Callee) (fn : StreamFunc Ext SquashObject)
    (f : Frame Ext SquashObject) :
  invoke who fn f
  = mkFrame (fst (fn (strm f))) (Some (snd (fn (strm f))))
            (current_operation f)
            (calls f ++ [mkCall who (strm f) (fst (fn (strm f)))
                                (snd (fn (strm f)))]).
Proof. unfold invoke. destruct (fn (strm f)); reflexivity. Qed.

Lemma dispatch_current_operation funcs op f :
  current_operation (dispatch' funcs op f) = current_operation f.
Proof.
  unfold dispatch.
  repeat match goal with
         | |- context [if ?b then _ else _] => destruct b
         | |- context [match ?x with _ => _ end] => destruct x eqn:?
         end;
    rewrite ?invoke_spec; reflexivity.
Qed.

Lemma check_sbb_current_operation nxt (f : Frame Ext SquashObject) :
  current_operation (check_sbb nxt f) = current_operation f.
Proof.
  unfold check_sbb.
  destruct (negb (is_null nxt)); [destruct (avail_out (strm f) =? 0)|];
    reflexivity.
Qed.

Lemma check_sbb_strm nxt (f : Frame Ext SquashObject) :
  strm (check_sbb nxt f) = strm f.
Proof.
  unfold check_sbb.
  destruct (negb (is_null nxt)); [destruct (avail_out (strm f) =? 0)|];
    reflexivity.
Qed.

Lemma check_sbb_calls nxt (f : Frame Ext SquashObject) :
  calls (check_sbb nxt f) = calls f.
Proof.
  unfold check_sbb.
  destruct (negb (is_null nxt)); [destruct (avail_out (strm f) =? 0)|];
    reflexivity.
Qed.

(** Only a status of [SQUASH_OK] below the Finish level sends the loop
    round again, and it does so with [current_operation] one higher. *)
Lemma interpret_continue (f f' : Frame Ext SquashObject) :
  interpret f = Continue f' ->
  res f = Some SQUASH_OK
  /\ current_operation f <> 2
  /\ f' = mkFrame (set_state SQUASH_STREAM_STATE_IDLE (strm f))
                  (Some SQUASH_OK) (current_operation f + 1) (calls f).
Proof.
  unfold interpret.
  destruct f as [s [r|] cur cs]; simpl; [|discriminate].
  destruct r; simpl; rewrite ?andb_false_r, ?andb_true_r;
    try discriminate.
  destruct (Z.eqb_spec cur 2); simpl; [discriminate|].
  intros H; inversion H; auto.
Qed.

Lemma turn_continue funcs op nxt f f' :
  turn funcs op nxt f = Continue f' ->
  current_operation f' = current_operation f + 1
  /\ res f' = Some SQUASH_OK.
Proof.
  unfold iteration. intros H.
  apply interpret_continue in H. destruct H as (_ & _ & ->). simpl.
  rewrite check_sbb_current_operation, dispatch_current_operation. auto.
Qed.

(** The rule for reasoning about the loop: an invariant [Inv] kept by
    every turn that continues, a postcondition [Post] established by
    every [break] and by the loop condition turning false, and a
    condition [Bad] for the turns that read an indeterminate [res]. *)
Lemma escalate_rule (Inv Post Bad : Frame Ext SquashObject -> Prop)
    funcs op nxt :
  (forall f, Inv f -> current_operation f <= op ->
             match turn funcs op nxt f with
             | Continue f' => Inv f'
             | Break f' => Post f'
             | Indeterminate f' => Bad f'
             end) ->
  (forall f, Inv f -> op < current_operation f -> Post f) ->
  forall turns f,
    Inv f ->
    match loop turns funcs op nxt f with
    | Exits f' => Post f'
    | Undefined f' => Bad f'
    | Unfinished _ => True
    end.
Proof.
  intros Hturn Hexit.
  induction turns as [|turns IH]; intros f HInv; simpl.
  - destruct (Z.leb_spec (current_operation f) op); [exact I|].
    apply Hexit; assumption.
  - destruct (Z.leb_spec (current_operation f) op) as [Hle|Hgt].
    + specialize (Hturn f HInv Hle).
      destruct (turn funcs op nxt f) as [f'|f'|f'];
        [apply IH; exact Hturn | exact Hturn | exact Hturn].
    + apply Hexit; assumption.
Qed.

(** The bound the engine gives the loop is never the reason it stops. *)
Lemma escalate_enough_turns funcs op nxt :
  forall turns f,
    op + 1 - current_operation f <= Z.of_nat turns ->
    forall f', loop turns funcs op nxt f <> Unfinished f'.
Proof.
  induction turns as [|turns IH]; intros f Hbound f'; simpl.
  - destruct (Z.leb_spec (current_operation f) op); [lia|discriminate].
  - destruct (Z.leb_spec (current_operation f) op); [|discriminate].
    destruct (turn funcs op nxt f) as [f1|f1|f1] eqn:Hturn;
      try discriminate.
    apply turn_continue in Hturn. destruct Hturn as [Hcur _].
    apply IH. lia.
Qed.

(** ** The shape of a call *)

(** A call is turned down with [SQUASH_INVALID_OPERATION], turned down
    with [SQUASH_STATE], or runs the loop from the level of the current
    state and goes through the epilogue. *)
Lemma engine_cases (s : Stream) (op : Z) :
  (engine s op = ([], Returns SQUASH_INVALID_OPERATION s)
   /\ op = 1
   /\ flush_stream (squash_codec_get_funcs (codec s)) = None)
  \/ engine s op = ([], Returns SQUASH_STATE s)
  \/ (operation_of_state (state s) <= op
      /\ (op = 1 -> flush_stream (squash_codec_get_funcs (codec s)) <> None)
      /\ engine s op
         = conclude (avail_in s) (avail_out s) (saved_next_out s)
             (loop (Z.to_nat (op + 1 - operation_of_state (state s)))
                   (squash_codec_get_funcs (codec s)) op (saved_next_out s)
                   (mkFrame (place_probe s) None
                            (operation_of_state (state s)) []))).
Proof.
  unfold squash_stream_process_internal.
  destruct (Z.eqb_spec op 1) as [Hop|Hop]; simpl.
  - destruct (flush_stream (squash_codec_get_funcs (codec s))) eqn:Hflush.
    + destruct (already_past op (state s)); [auto|].
      destruct (Z.ltb_spec op (operation_of_state (state s))); [auto|].
      right; right. repeat split; auto; try discriminate.
    + left. auto.
  - destruct (already_past op (state s)); [auto|].
    destruct (Z.ltb_spec op (operation_of_state (state s))); [auto|].
    right; right. repeat split; auto; try contradiction.
Qed.

(** What a call that returns went through, when it did run the loop. *)
Lemma conclude_returns a_in a_out nxt (e : LoopExit) made r (s' : Stream) :
  conclude a_in a_out nxt e = (made, Returns r s') ->
  exists f, e = Exits f /\ res f = Some r /\ calls f = made
            /\ s' = epilogue a_in a_out nxt (strm f).
Proof.
  unfold conclude. destruct e as [f|f|f]; try discriminate.
  destruct (res f) eqn:Hres; try discriminate.
  intros H; inversion H; subst. exists f. auto.
Qed.

(** ** Properties of the stream that every turn keeps *)

Section StreamInvariant.

Variable P : Stream -> Prop.
Variable funcs : SquashCodecFuncs Ext SquashObject.

Hypothesis P_set_state : forall st s, P s -> P (set_state st s).
Hypothesis P_process :
  forall fn, process_stream funcs = Some fn -> forall s, P s -> P (fst (fn s)).
Hypothesis P_flush :
  forall fn, flush_stream funcs = Some fn -> forall s, P s -> P (fst (fn s)).
Hypothesis P_finish :
  forall fn, finish_stream funcs = Some fn -> forall s, P s -> P (fst (fn s)).
Hypothesis P_buffer_process :
  forall s, P s -> P (fst (squash_buffer_stream_process s)).
Hypothesis P_buffer_finish :
  forall s, P s -> P (fst (squash_buffer_stream_finish s)).

Lemma dispatch_keeps op f : P (strm f) -> P (strm (dispatch' funcs op f)).
Proof.
  intros HP. unfold dispatch.
  repeat match goal with
         | |- context [if ?b then _ else _] => destruct b
         | |- context [match ?x with _ => _ end] => destruct x eqn:?
         end;
    rewrite ?invoke_spec in *; simpl; eauto.
Qed.

Lemma interpret_keeps f :
  P (strm f) ->
  match interpret f with
  | Continue f' | Break f' | Indeterminate f' => P (strm f')
  end.
Proof.
  intros HP. unfold interpret, in_progress_state.
  destruct (res f) as [r|]; [|exact HP].
  repeat match goal with
         | |- context [if ?b then _ else _] => destruct b
         end; simpl; auto.
Qed.

Lemma turn_keeps op nxt f :
  P (strm f) ->
  match turn funcs op nxt f with
  | Continue f' | Break f' | Indeterminate f' => P (strm f')
  end.
Proof.
  intros HP. unfold iteration. apply interpret_keeps.
  rewrite check_sbb_strm. apply dispatch_keeps. exact HP.
Qed.

Lemma escalate_keeps op nxt turns f :
  P (strm f) ->
  match loop turns funcs op nxt f with
  | Exits f' => P (strm f')
  | Undefined f' => P (strm f')
  | Unfinished _ => True
  end.
Proof.
  apply (escalate_rule (fun f => P (strm f)) (fun f => P (strm f))
                       (fun f => P (strm f))).
  - intros g HP _. apply turn_keeps. exact HP.
  - auto.
Qed.

End StreamInvariant.

(** ** Byte totals *)

Lemma size_wrap_small z : in_size_t z -> size_wrap z = z.
Proof.
  unfold in_size_t, SIZE_MAX, size_wrap. intros H.
  apply Z.mod_small. lia.
Qed.

Lemma size_add_sub t a b : size_add t (size_sub a b) = size_wrap (t + (a - b)).
Proof.
  unfold size_add, size_sub, size_wrap.
  rewrite Zplus_mod_idemp_r. reflexivity.
Qed.

(** What the epilogue does to the fields of the stream. *)
Lemma epilogue_fields a_in a_out nxt (x : Stream) :
  avail_in (epilogue a_in a_out nxt x) = avail_in x
  /\ avail_out (epilogue a_in a_out nxt x)
     = (if is_null nxt then avail_out x else 0)
  /\ next_out (epilogue a_in a_out nxt x)
     = (if is_null nxt then next_out x else nxt)
  /\ total_in (epilogue a_in a_out nxt x)
     = size_wrap (total_in x + (a_in - avail_in x))
  /\ total_out (epilogue a_in a_out nxt x)
     = size_wrap (total_out x
                  + (a_out - (if is_null nxt then avail_out x else 0)))
  /\ state (epilogue a_in a_out nxt x) = state x.
Proof.
  unfold epilogue. destruct (is_null nxt); simpl;
    rewrite !size_add_sub; repeat split; reflexivity.
Qed.

Lemma counters_below_entry (s : Stream) (fn : StreamFunc Ext SquashObject) :
  well_behaved fn ->
  forall x, counters_below s x -> counters_below s (fst (fn x)).
Proof.
  intros [Hkeep Hcons] x (Hti & Hto & Hai & Hao).
  destruct (Hkeep x) as [Hti' Hto'].
  destruct (Hcons x) as [Hai' Hao'].
  unfold counters_below.
  rewrite Hti', Hto'. repeat split; try assumption; lia.
Qed.

Lemma counters_below_loop (s : Stream) op nxt turns f :
  funcs_well_behaved (squash_codec_get_funcs (codec s)) ->
  well_behaved squash_buffer_stream_process ->
  well_behaved squash_buffer_stream_finish ->
  counters_below s (strm f) ->
  match loop turns (squash_codec_get_funcs (codec s)) op nxt f with
  | Exits f' => counters_below s (strm f')
  | Undefined f' => counters_below s (strm f')
  | Unfinished _ => True
  end.
Proof.
  intros (Hp & Hfl & Hfi) Hbp Hbf.
  apply escalate_keeps.
  - intros st x H. exact H.
  - intros fn Hfn. rewrite Hfn in Hp. apply counters_below_entry, Hp.
  - intros fn Hfn. rewrite Hfn in Hfl. apply counters_below_entry, Hfl.
  - intros fn Hfn. rewrite Hfn in Hfi. apply counters_below_entry, Hfi.
  - apply counters_below_entry, Hbp.
  - apply counters_below_entry, Hbf.
Qed.

Lemma engine_totals (s s' : Stream) op made r :
  funcs_well_behaved (squash_codec_get_funcs (codec s)) ->
  well_behaved squash_buffer_stream_process ->
  well_behaved squash_buffer_stream_finish ->
  counters_in_range s ->
  (avail_out s = 0 -> next_out s <> NULL) ->
  engine s op = (made, Returns r s') ->
  total_in s + (avail_in s - avail_in s') <= SIZE_MAX ->
  total_out s + (avail_out s - avail_out s') <= SIZE_MAX ->
  (avail_in s' <= avail_in s /\ avail_out s' <= avail_out s)
  /\ (total_in s' = total_in s + (avail_in s - avail_in s')
      /\ total_out s' = total_out s + (avail_out s - avail_out s'))
  /\ (total_in s <= total_in s' /\ total_out s <= total_out s').
Proof.
  intros Hfuncs Hbp Hbf (Rai & Rao & Rti & Rto) Hnull Heq Hin Hout.
  unfold in_size_t in *.
  destruct (engine_cases s op) as [(H & _) | [H | (_ & _ & H)]];
    rewrite H in Heq; clear H.
  - inversion Heq; subst. lia.
  - inversion Heq; subst. lia.
  - apply conclude_returns in Heq. destruct Heq as (f & He & _ & _ & Hs').
    pose proof (counters_below_loop s op (saved_next_out s)
                  (Z.to_nat (op + 1 - operation_of_state (state s)))
                  (mkFrame (place_probe s) None
                           (operation_of_state (state s)) [])
                  Hfuncs Hbp Hbf) as Hloop.
    rewrite He in Hloop.
    assert (Hstart : counters_below s (place_probe s)).
    { unfold counters_below, place_probe.
      destruct (Z.eqb_spec (avail_out s) 0); simpl; lia. }
    specialize (Hloop Hstart). destruct Hloop as (Hti & Hto & Hai & Hao).
    destruct (epilogue_fields (avail_in s) (avail_out s) (saved_next_out s)
                              (strm f))
      as (Eai & Eao & _ & Eti & Eto & _).
    rewrite <- Hs' in *. clear Hs'.
    rewrite Hti, <- Eai in Eti. rewrite Hto, <- Eao in Eto.
    assert (Hrange : avail_in s' <= avail_in s /\ 0 <= avail_out s' <= avail_out s).
    { rewrite Eai, Eao. unfold saved_next_out, place_probe in *.
      destruct (Z.eqb_spec (avail_out s) 0) as [Hz|Hz]; simpl in *.
      - destruct (next_out s); simpl; [exfalso; apply (Hnull Hz); reflexivity|].
        lia.
      - lia. }
    rewrite size_wrap_small in Eti by (unfold in_size_t; lia).
    rewrite size_wrap_small in Eto by (unfold in_size_t; lia).
    lia.
Qed.

(** C1, as the code has it.  Take a call of process, flush or finish
    that returns, on a stream whose [size_t] fields hold a [size_t],
    with plug-in entry points that leave the totals alone and never
    raise [avail_in] or [avail_out], with a [next_out] that is not [NULL]
    when [avail_out] is 0, and in which neither total would pass
    [SIZE_MAX].  Then [avail_in] and [avail_out] did not grow, the amount
    added to [total_in] (to [total_out]) is exactly the decrease of
    [avail_in] (of [avail_out]) the caller sees across the call, and no
    total decreased; the status returned plays no part. *)
Theorem totals_follow_cursors (which : Driver) (s s' : Stream)
    (made : list (Call Ext SquashObject)) (r : SquashStatus) :
  funcs_well_behaved (squash_codec_get_funcs (codec s)) ->
  well_behaved squash_buffer_stream_process ->
  well_behaved squash_buffer_stream_finish ->
  counters_in_range s ->
  (avail_out s = 0 -> next_out s <> NULL) ->
  drive squash_codec_get_funcs squash_buffer_stream_process
        squash_buffer_stream_finish which s
  = (made, Returns r s') ->
  total_in s + (avail_in s - avail_in s') <= SIZE_MAX ->
  total_out s + (avail_out s - avail_out s') <= SIZE_MAX ->
  (avail_in s' <= avail_in s /\ avail_out s' <= avail_out s)
  /\ (total_in s' = total_in s + (avail_in s - avail_in s')
      /\ total_out s' = total_out s + (avail_out s - avail_out s'))
  /\ (total_in s <= total_in s' /\ total_out s <= total_out s').
Proof.
  intros Hfuncs Hbp Hbf Hrange Hnull Hcall.
  destruct which; simpl in Hcall;
    unfold squash_stream_process, squash_stream_flush, squash_stream_finish
      in Hcall;
    eapply engine_totals; eassumption.
Qed.

(** The same without any assumption on the cursors: whatever the
    entry points do to [avail_in] and [avail_out], and whether or not
    the probe is taken back, the totals move by the difference of the
    caller-visible remaining lengths, on [size_t]. *)
Lemma totals_follow_cursors_modulo (s s' : Stream) op made r :
  (forall fn,
      In (Some fn) [process_stream (squash_codec_get_funcs (codec s));
                    flush_stream (squash_codec_get_funcs (codec s));
                    finish_stream (squash_codec_get_funcs (codec s));
                    Some squash_buffer_stream_process;
                    Some squash_buffer_stream_finish] ->
      keeps_totals fn) ->
  in_size_t (total_in s) -> in_size_t (total_out s) ->
  engine s op = (made, Returns r s') ->
  total_in s' = size_wrap (total_in s + (avail_in s - avail_in s'))
  /\ total_out s' = size_wrap (total_out s + (avail_out s - avail_out s')).
Proof.
  intros Hkeep Rti Rto Heq.
  destruct (engine_cases s op) as [(H & _) | [H | (_ & _ & H)]];
    rewrite H in Heq; clear H.
  - inversion Heq; subst.
    rewrite !Z.sub_diag, !Z.add_0_r, !size_wrap_small; auto.
  - inversion Heq; subst.
    rewrite !Z.sub_diag, !Z.add_0_r, !size_wrap_small; auto.
  - apply conclude_returns in Heq. destruct Heq as (f & He & _ & _ & Hs').
    assert (Hfn : forall fn,
               In (Some fn)
                  [process_stream (squash_codec_get_funcs (codec s));
                   flush_stream (squash_codec_get_funcs (codec s));
                   finish_stream (squash_codec_get_funcs (codec s));
                   Some squash_buffer_stream_process;
                   Some squash_buffer_stream_finish] ->
               forall x, total_in x = total_in s /\ total_out x = total_out s ->
                         total_in (fst (fn x)) = total_in s
                         /\ total_out (fst (fn x)) = total_out s).
    { intros fn Hin x [Hti Hto]. destruct (Hkeep fn Hin x) as [-> ->]. auto. }
    assert (Hstart : total_in (place_probe s) = total_in s
                     /\ total_out (place_probe s) = total_out s).
    { unfold place_probe. destruct (avail_out s =? 0); auto. }
    pose proof (escalate_keeps
                  (fun x => total_in x = total_in s
                            /\ total_out x = total_out s)
                  (squash_codec_get_funcs (codec s))
                  (fun st x H => H)
                  (fun fn E => Hfn fn (or_introl E))
                  (fun fn E => Hfn fn (or_intror (or_introl E)))
                  (fun fn E => Hfn fn (or_intror (or_intror (or_introl E))))
                  (Hfn _ (or_intror (or_intror (or_intror
                            (or_introl eq_refl)))))
                  (Hfn _ (or_intror (or_intror (or_intror (or_intror
                            (or_introl eq_refl))))))
                  op (saved_next_out s)
                  (Z.to_nat (op + 1 - operation_of_state (state s)))
                  (mkFrame (place_probe s) None
                           (operation_of_state (state s)) [])
                  Hstart) as Hloop.
    rewrite He in Hloop.
    destruct Hloop as [Hti Hto].
    destruct (epilogue_fields (avail_in s) (avail_out s) (saved_next_out s)
                              (strm f))
      as (Eai & Eao & _ & Eti & Eto & _).
    rewrite <- Hs' in *.
    rewrite Eti, Eto, Eai, Eao, Hti, Hto. auto.
Qed.

(** ** Finish on a codec without a finish entry point *)

Lemma turn_without_finish funcs p nxt f :
  process_stream funcs = Some p ->
  finish_stream funcs = None ->
  only_process_called (calls f) ->
  0 <= current_operation f <= 2 ->
  (current_operation f = 1 -> res f = None \/ res f = Some SQUASH_OK) ->
  match turn funcs 2 nxt f with
  | Continue f' =>
      only_process_called (calls f')
      /\ 0 <= current_operation f' <= 2
      /\ res f' = Some SQUASH_OK
  | Break f' =>
      only_process_called (calls f')
      /\ exists r, res f' = Some r /\ finish_refused (calls f') r
  | Indeterminate f' => only_process_called (calls f')
  end.
Proof.
  intros Hp Hfin Hcalls Hcur Hres.
  destruct f as [s r cur cs]; simpl in *.
  unfold iteration, dispatch; simpl. rewrite Hp, Hfin.
  assert (Hcase : cur = 0 \/ cur = 1 \/ cur = 2) by lia.
  unfold check_sbb, interpret, assign_res, with_stream, next_operation,
    in_progress_state.
  destruct Hcase as [-> | [-> | ->]]; simpl.
  - rewrite invoke_spec. simpl.
    destruct (snd (p s)) eqn:Hr;
      repeat match goal with
             | |- context [if ?b then _ else _] => destruct b eqn:?; simpl
             end;
      try discriminate;
      repeat split; try lia; try assumption; try reflexivity;
      try (apply Forall_app; split; [assumption | repeat constructor]);
      try (eexists; split; [reflexivity|]; unfold finish_refused;
           rewrite ?map_app, ?in_app_iff; simpl;
           first [ right; right; left; reflexivity
                 | right; right; right; split; [discriminate | auto] ]).
  - destruct (Hres eq_refl) as [-> | ->];
      repeat match goal with
             | |- context [if ?b then _ else _] => destruct b eqn:?; simpl
             end;
      try discriminate;
      repeat split; try lia; try assumption; try reflexivity;
      try (eexists; split; [reflexivity|]; unfold finish_refused;
           right; right; left; reflexivity).
  - repeat match goal with
           | |- context [if ?b then _ else _] => destruct b eqn:?; simpl
           end;
      try discriminate;
      repeat split; try lia; try assumption; try reflexivity;
      try (eexists; split; [reflexivity|]; unfold finish_refused;
           first [ right; left; reflexivity
                 | right; right; left; reflexivity ]).
Qed.

Lemma operation_of_state_bounds (st : SquashStreamState) :
  0 <= operation_of_state st <= 3.
Proof. destruct st; simpl; lia. Qed.

Lemma engine_turns_suffice (s : Stream) op nxt f :
  loop (Z.to_nat (op + 1 - operation_of_state (state s)))
       (squash_codec_get_funcs (codec s)) op nxt
       (mkFrame (place_probe s) None (operation_of_state (state s)) [])
  <> Unfinished f.
Proof. apply escalate_enough_turns. simpl. lia. Qed.

(** C3, as the code has it.  On a codec that has a process entry point
    and no finish entry point, a finish call never reaches the buffering
    adapter: every call it makes goes to the codec's process entry
    point.  It never returns [SQUASH_OK] either: the status is
    [SQUASH_STATE], [SQUASH_INVALID_OPERATION] (what the Finish level
    answers for such a codec), [SQUASH_BUFFER_FULL], or a status other
    than [SQUASH_OK] that the process entry point returned. *)
Theorem finish_without_finish_entry (s : Stream)
    (p : StreamFunc Ext SquashObject)
    (made : list (Call Ext SquashObject)) (out : Outcome Ext SquashObject) :
  process_stream (squash_codec_get_funcs (codec s)) = Some p ->
  finish_stream (squash_codec_get_funcs (codec s)) = None ->
  squash_stream_finish squash_codec_get_funcs
    squash_buffer_stream_process squash_buffer_stream_finish s
  = (made, out) ->
  only_process_called made
  /\ (forall c, In c made -> callee c <> BufferStreamFinish)
  /\ (forall r s', out = Returns r s' ->
                   finish_refused made r /\ r <> SQUASH_OK).
Proof.
  intros Hp Hfin Hcall.
  assert (Hmain : only_process_called made
                  /\ forall r s', out = Returns r s' -> finish_refused made r).
  { unfold squash_stream_finish in Hcall.
    destruct (engine_cases s 2) as [(_ & Hop & _) | [H | (Hcur & _ & H)]].
    - discriminate Hop.
    - rewrite H in Hcall. inversion Hcall; subst. split.
      + constructor.
      + intros r s' Hr. inversion Hr; subst. left. reflexivity.
    - rewrite H in Hcall. clear H.
      pose proof (operation_of_state_bounds (state s)) as Hb.
      assert (Hloop :
                match loop (Z.to_nat (2 + 1 - operation_of_state (state s)))
                           (squash_codec_get_funcs (codec s)) 2
                           (saved_next_out s)
                           (mkFrame (place_probe s) None
                                    (operation_of_state (state s)) []) with
                | Exits f' =>
                    only_process_called (calls f')
                    /\ exists r, res f' = Some r
                                 /\ finish_refused (calls f') r
                | Undefined f' => only_process_called (calls f')
                | Unfinished _ => True
                end).
      { apply (escalate_rule
                 (fun f => only_process_called (calls f)
                           /\ 0 <= current_operation f <= 2
                           /\ (current_operation f = 1 ->
                               res f = None \/ res f = Some SQUASH_OK))).
        - intros g (Hc & Hcur' & Hres') _.
          pose proof (turn_without_finish _ p (saved_next_out s) g Hp Hfin
                        Hc Hcur' Hres') as Hturn.
          destruct (turn (squash_codec_get_funcs (codec s)) 2
                         (saved_next_out s) g) as [g'|g'|g']; auto.
          destruct Hturn as (H1 & H2 & H3). repeat split; auto; lia.
        - intros g (_ & Hcur' & _) Hgt. lia.
        - simpl. repeat split; auto. constructor. lia. }
      pose proof (engine_turns_suffice s 2 (saved_next_out s)) as Hfuel.
      destruct (loop (Z.to_nat (2 + 1 - operation_of_state (state s)))
                     (squash_codec_get_funcs (codec s)) 2 (saved_next_out s)
                     (mkFrame (place_probe s) None
                              (operation_of_state (state s)) []))
        as [f|f|f].
      + destruct Hloop as (Hcalls & r & Hres & Href).
        simpl in Hcall. rewrite Hres in Hcall.
        inversion Hcall; subst. split; [assumption|].
        intros r' s' Hr. inversion Hr; subst. assumption.
      + simpl in Hcall. inversion Hcall; subst. split; [assumption|].
        intros r' s' Hr. discriminate Hr.
      + exfalso. apply (Hfuel f). reflexivity. }
  destruct Hmain as [Hcalls Hout]. split; [assumption|]. split.
  - intros c Hin Hc.
    unfold only_process_called in Hcalls. rewrite Forall_forall in Hcalls.
    rewrite (Hcalls c Hin) in Hc. discriminate.
  - intros r s' Hr. split; [eapply Hout; eassumption|].
    destruct (Hout r s' Hr) as [-> | [-> | [-> | [Hne _]]]];
      try discriminate; assumption.
Qed.

(** ** [SQUASH_END_OF_STREAM] from the finish entry point *)

Lemma interpret_calls (f : Frame Ext SquashObject) :
  match interpret f with
  | Continue f' | Break f' | Indeterminate f' => calls f' = calls f
  end.
Proof.
  unfold interpret. destruct (res f) as [r|]; [|reflexivity].
  repeat match goal with
         | |- context [if ?b then _ else _] => destruct b
         end; reflexivity.
Qed.

(** A turn that makes no call to the finish entry point leaves nothing
    to say about such calls. *)
Lemma turn_tail_no_finish nxt (g : Frame Ext SquashObject)
    (X : Call Ext SquashObject -> Frame Ext SquashObject -> Prop) :
  no_finish_called (calls g) ->
  match interpret (check_sbb nxt g) with
  | Continue f' => no_finish_called (calls f')
  | Break f' =>
      forall c, In c (calls f') -> callee c = FinishStream -> X c f'
  | Indeterminate _ => True
  end.
Proof.
  intros Hno.
  pose proof (interpret_calls (check_sbb nxt g)) as Hc.
  rewrite check_sbb_calls in Hc.
  destruct (interpret (check_sbb nxt g)) as [f'|f'|f']; auto.
  - rewrite Hc. exact Hno.
  - rewrite Hc. intros c Hin Hfin.
    unfold no_finish_called in Hno. rewrite Forall_forall in Hno.
    exfalso. exact (Hno c Hin Hfin).
Qed.

Lemma turn_end_of_stream funcs nxt f :
  no_finish_called (calls f) ->
  match turn funcs 2 nxt f with
  | Continue f' => no_finish_called (calls f')
  | Break f' =>
      forall c,
        In c (calls f') -> callee c = FinishStream ->
        returned c = SQUASH_END_OF_STREAM ->
        ~ (is_null nxt = false /\ avail_out (handed_back c) = 0) ->
        res f' = Some SQUASH_OK
        /\ state (strm f') = SQUASH_STREAM_STATE_FINISHED
  | Indeterminate _ => True
  end.
Proof.
  intros Hno. destruct f as [s r cur cs]; simpl in *.
  assert (Hadd : forall who (fn : StreamFunc Ext SquashObject),
             who <> FinishStream ->
             no_finish_called
               (calls (invoke who fn (mkFrame s r cur cs)))).
  { intros who fn Hwho. rewrite invoke_spec. simpl.
    apply Forall_app. split; [exact Hno|]. repeat constructor. exact Hwho. }
  unfold iteration, dispatch; simpl.
  destruct (Z.eqb_spec cur 0) as [-> | H0].
  { destruct ((avail_in s =? 0)
              && state_eqb (state s) SQUASH_STREAM_STATE_IDLE).
    - apply (turn_tail_no_finish nxt _ (fun c f' => _ -> _ -> _)). exact Hno.
    - destruct (process_stream funcs);
        apply (turn_tail_no_finish nxt _ (fun c f' => _ -> _ -> _));
        apply Hadd; discriminate. }
  destruct (Z.eqb_spec cur 1) as [-> | H1].
  { simpl. apply (turn_tail_no_finish nxt _ (fun c f' => _ -> _ -> _)).
    exact Hno. }
  destruct (Z.eqb_spec cur 2) as [-> | H2].
  2: { apply (turn_tail_no_finish nxt _ (fun c f' => _ -> _ -> _)).
       exact Hno. }
  destruct (finish_stream funcs) as [fn|] eqn:Hfin.
  2: { destruct (process_stream funcs).
       - simpl.
         apply (turn_tail_no_finish nxt _ (fun c f' => _ -> _ -> _)).
         exact Hno.
       - rewrite invoke_spec. simpl.
         destruct (snd (squash_buffer_stream_finish s));
           apply (turn_tail_no_finish nxt _ (fun c f' => _ -> _ -> _));
           simpl; apply Forall_app; (split; [exact Hno|]);
           repeat constructor; discriminate. }
  rewrite invoke_spec. simpl.
  assert (Hold : forall c, In c cs -> callee c <> FinishStream).
  { unfold no_finish_called in Hno. rewrite Forall_forall in Hno. exact Hno. }
  unfold check_sbb, interpret.
  destruct (snd (fn s)) eqn:Hr; simpl;
    destruct nxt as [|b ofs]; simpl;
    try destruct (Z.eqb_spec (avail_out (fst (fn s))) 0) as [Hz|Hz]; simpl;
    try exact I;
    intros c Hin Hcallee Hret Hprobe;
    (apply in_app_iff in Hin; destruct Hin as [Hin | [<- | []]];
     [exfalso; exact (Hold c Hin Hcallee)|]);
    simpl in *; try discriminate Hret;
    try (split; reflexivity);
    exfalso; apply Hprobe; split; [reflexivity | exact Hz].
Qed.

(** C8, as the code has it.  In a finish call that returns, if the
    codec's finish entry point was called and returned
    [SQUASH_END_OF_STREAM], then the call returns [SQUASH_OK] and leaves
    the stream in state Finished, except when the call was made with an
    [avail_out] of 0 and the finish entry point used the probe byte up:
    the check of the probe comes after the normalisation and turns the
    status into [SQUASH_BUFFER_FULL]. *)
Theorem finish_end_of_stream_is_ok (s s' : Stream)
    (made : list (Call Ext SquashObject)) (r : SquashStatus)
    (c : Call Ext SquashObject) :
  squash_stream_finish squash_codec_get_funcs
    squash_buffer_stream_process squash_buffer_stream_finish s
  = (made, Returns r s') ->
  In c made ->
  callee c = FinishStream ->
  returned c = SQUASH_END_OF_STREAM ->
  ~ (avail_out s = 0 /\ avail_out (handed_back c) = 0) ->
  r = SQUASH_OK /\ state s' = SQUASH_STREAM_STATE_FINISHED.
Proof.
  intros Hcall Hin Hcallee Hret Hprobe.
  unfold squash_stream_finish in Hcall.
  destruct (engine_cases s 2) as [(H & _) | [H | (_ & _ & H)]];
    rewrite H in Hcall; clear H.
  - inversion Hcall; subst. destruct Hin.
  - inversion Hcall; subst. destruct Hin.
  - apply conclude_returns in Hcall.
    destruct Hcall as (f & He & Hres & Hcalls & Hs').
    assert (Hloop :
              match loop (Z.to_nat (2 + 1 - operation_of_state (state s)))
                         (squash_codec_get_funcs (codec s)) 2
                         (saved_next_out s)
                         (mkFrame (place_probe s) None
                                  (operation_of_state (state s)) []) with
              | Exits f' =>
                  forall c,
                    In c (calls f') -> callee c = FinishStream ->
                    returned c = SQUASH_END_OF_STREAM ->
                    ~ (is_null (saved_next_out s) = false
                       /\ avail_out (handed_back c) = 0) ->
                    res f' = Some SQUASH_OK
                    /\ state (strm f') = SQUASH_STREAM_STATE_FINISHED
              | Undefined _ => True
              | Unfinished _ => True
              end).
    { apply (escalate_rule (fun f => no_finish_called (calls f))).
      - intros g Hg _. apply turn_end_of_stream. exact Hg.
      - intros g Hg _ c' Hin' Hcallee'.
        unfold no_finish_called in Hg. rewrite Forall_forall in Hg.
        exfalso. exact (Hg c' Hin' Hcallee').
      - constructor. }
    rewrite He in Hloop.
    assert (Hpost : res f = Some SQUASH_OK
                    /\ state (strm f) = SQUASH_STREAM_STATE_FINISHED).
    { rewrite <- Hcalls in Hin. apply (Hloop c Hin Hcallee Hret).
      intros [Hnull Hz]. apply Hprobe. split; [|exact Hz].
      unfold saved_next_out in Hnull.
      destruct (Z.eqb_spec (avail_out s) 0); [assumption|discriminate]. }
    destruct Hpost as [Hok Hst]. rewrite Hok in Hres. inversion Hres; subst r.
    split; [reflexivity|].
    rewrite Hs'.
    destruct (epilogue_fields (avail_in s) (avail_out s) (saved_next_out s)
                              (strm f)) as (_ & _ & _ & _ & _ & ->).
    exact Hst.
Qed.

(** ** The status the loop interprets *)

(** C9, evaluated on the code.  A finish call on a stream in state
    Flushing enters the loop at the Flush level with [res] never
    assigned; that level assigns [res] only when the request itself is a
    flush, and the probe check leaves it alone, so the first turn of the
    loop compares an indeterminate [res].  No entry point is called
    before that. *)
Theorem finish_from_flushing_reads_unassigned_res (s : Stream) :
  state s = SQUASH_STREAM_STATE_FLUSHING ->
  squash_stream_finish squash_codec_get_funcs
    squash_buffer_stream_process squash_buffer_stream_finish s
  = ([], ReadsIndeterminate (place_probe s)).
Proof.
  intros Hst.
  unfold squash_stream_finish, squash_stream_process_internal.
  rewrite Hst. simpl.
  unfold iteration, dispatch, check_sbb, saved_next_out, place_probe. simpl.
  destruct (Z.eqb_spec (avail_out s) 0) as [Hz|Hz]; simpl.
  - destruct (next_out s); reflexivity.
  - reflexivity.
Qed.

(** A turn reads an assigned [res] as soon as [res] was assigned before
    the turn or the level of the turn assigns it. *)
Lemma turn_assigns funcs op nxt f :
  res f <> None
  \/ current_operation f = 0
  \/ current_operation f = 2
  \/ (current_operation f = 1 /\ op = 1 /\ flush_stream funcs <> None) ->
  match turn funcs op nxt f with
  | Continue f' | Break f' => res f' <> None
  | Indeterminate _ => False
  end.
Proof.
  intros Hpre.
  assert (Hd : res (dispatch' funcs op f) <> None).
  { unfold dispatch.
    destruct Hpre as [Hres | [H0 | [H2 | (H1 & Hop & Hfl)]]].
    - repeat match goal with
             | |- context [if ?b then _ else _] => destruct b
             | |- context [match ?x with _ => _ end] => destruct x eqn:?
             end;
        rewrite ?invoke_spec in *; simpl in *; congruence.
    - rewrite H0. simpl.
      repeat match goal with
             | |- context [if ?b then _ else _] => destruct b
             | |- context [match ?x with _ => _ end] => destruct x eqn:?
             end;
        rewrite ?invoke_spec; simpl; discriminate.
    - rewrite H2. simpl.
      repeat match goal with
             | |- context [match ?x with _ => _ end] => destruct x eqn:?
             end;
        rewrite ?invoke_spec in *; simpl in *; congruence.
    - rewrite H1, Hop. simpl.
      destruct (flush_stream funcs); [|contradiction].
      rewrite invoke_spec. simpl. discriminate. }
  unfold iteration.
  assert (Hc : res (check_sbb nxt (dispatch' funcs op f)) <> None).
  { unfold check_sbb.
    repeat match goal with
           | |- context [if ?b then _ else _] => destruct b
           end; simpl; try discriminate; exact Hd. }
  revert Hc. generalize (check_sbb nxt (dispatch' funcs op f)).
  intros g Hg. unfold interpret.
  destruct (res g) as [r|] eqn:Hr; [|contradiction].
  repeat match goal with
         | |- context [if ?b then _ else _] => destruct b
         end; simpl; congruence.
Qed.

(** Every other call returns: the loop never runs out of turns, and no
    other entry into the loop leaves [res] unassigned. *)
Lemma engine_returns (s : Stream) (op : Z) :
  0 <= op <= 2 ->
  ~ (op = 2 /\ state s = SQUASH_STREAM_STATE_FLUSHING) ->
  exists made r s', engine s op = (made, Returns r s').
Proof.
  intros Hop Hnot.
  destruct (engine_cases s op) as [(H & _) | [H | (Hcur & Hfl & H)]];
    [eauto | eauto |].
  rewrite H. clear H.
  assert (Hloop :
            match loop (Z.to_nat (op + 1 - operation_of_state (state s)))
                       (squash_codec_get_funcs (codec s)) op
                       (saved_next_out s)
                       (mkFrame (place_probe s) None
                                (operation_of_state (state s)) []) with
            | Exits f' => res f' <> None
            | Undefined _ => False
            | Unfinished _ => True
            end).
  { apply (escalate_rule
             (fun f =>
                res f <> None
                \/ (current_operation f <= op
                    /\ (current_operation f = 0
                        \/ current_operation f = 2
                        \/ (current_operation f = 1 /\ op = 1
                            /\ flush_stream (squash_codec_get_funcs (codec s))
                               <> None))))).
    - intros g Hg _.
      assert (Hpre : res g <> None
                     \/ current_operation g = 0
                     \/ current_operation g = 2
                     \/ (current_operation g = 1 /\ op = 1
                         /\ flush_stream (squash_codec_get_funcs (codec s))
                            <> None)) by tauto.
      pose proof (turn_assigns _ op (saved_next_out s) g Hpre) as Hturn.
      destruct (turn (squash_codec_get_funcs (codec s)) op
                     (saved_next_out s) g); auto.
    - intros g [Hres | [Hle _]] Hgt; [exact Hres | lia].
    - right. simpl. split; [exact Hcur|].
      destruct (state s) eqn:Hst; simpl in *; auto.
      + assert (Hone : op = 1).
        { assert (op = 1 \/ op = 2) as [H | H] by lia; [exact H|].
          exfalso. apply Hnot. auto. }
        right. right. auto.
      + lia. }
  pose proof (engine_turns_suffice s op (saved_next_out s)) as Hfuel.
  destruct (loop (Z.to_nat (op + 1 - operation_of_state (state s)))
                 (squash_codec_get_funcs (codec s)) op (saved_next_out s)
                 (mkFrame (place_probe s) None
                          (operation_of_state (state s)) []))
    as [f|f|f].
  - simpl. destruct (res f) as [r|]; [eauto | contradiction].
  - contradiction.
  - exfalso. apply (Hfuel f). reflexivity.
Qed.

(** ** The Flush level of a finish request *)


(** ** The probe, when the caller's [next_out] is not [NULL] *)

Lemma probe_taken_back (s s' : Stream) op made r :
  avail_out s = 0 ->
  next_out s <> NULL ->
  engine s op = (made, Returns r s') ->
  next_out s' = next_out s /\ avail_out s' = 0.
Proof.
  intros Hz Hnull Heq.
  destruct (engine_cases s op) as [(H & _) | [H | (_ & _ & H)]];
    rewrite H in Heq; clear H.
  - inversion Heq; subst. auto.
  - inversion Heq; subst. auto.
  - apply conclude_returns in Heq. destruct Heq as (f & _ & _ & _ & ->).
    destruct (epilogue_fields (avail_in s) (avail_out s) (saved_next_out s)
                              (strm f)) as (_ & -> & -> & _).
    unfold saved_next_out. rewrite Hz. simpl.
    destruct (next_out s); [contradiction|]. simpl. auto.
Qed.

(** The [if / else if] chain either leaves stream and calls alone or
    makes one call, whose result is the stream it goes on with. *)
Lemma dispatch_calls funcs op f :
  (calls (dispatch' funcs op f) = calls f
   /\ strm (dispatch' funcs op f) = strm f)
  \/ exists c,
      calls (dispatch' funcs op f) = calls f ++ [c]
      /\ passed c = strm f
      /\ handed_back c = strm (dispatch' funcs op f).
Proof.
  unfold dispatch.
  repeat match goal with
         | |- context [if ?b then _ else _] => destruct b
         | |- context [match process_stream ?x with _ => _ end] =>
             destruct (process_stream x)
         | |- context [match flush_stream ?x with _ => _ end] =>
             destruct (flush_stream x)
         | |- context [match finish_stream ?x with _ => _ end] =>
             destruct (finish_stream x)
         end;
    rewrite ?invoke_spec; simpl;
    try (left; split; reflexivity);
    match goal with
    | |- context [match ?r with _ => _ end] =>
        destruct r; simpl;
        first [ left; split; reflexivity
              | right; eexists; repeat split; reflexivity ]
    | _ => right; eexists; repeat split; reflexivity
    end.
Qed.

Lemma interpret_buffer_full (f : Frame Ext SquashObject) :
  res f = Some SQUASH_BUFFER_FULL -> interpret f = Break f.
Proof.
  unfold interpret. intros ->. simpl. rewrite andb_false_r. reflexivity.
Qed.

Lemma interpret_avail_out (f : Frame Ext SquashObject) :
  match interpret f with
  | Continue f' | Break f' | Indeterminate f' =>
      avail_out (strm f') = avail_out (strm f)
  end.
Proof.
  unfold interpret, in_progress_state.
  destruct (res f) as [r|]; [|reflexivity].
  repeat match goal with
         | |- context [if ?b then _ else _] => destruct b
         end; reflexivity.
Qed.

Lemma turn_probe funcs op nxt f :
  is_null nxt = false ->
  avail_out (strm f) <> 0 ->
  room_left (calls f) ->
  match turn funcs op nxt f with
  | Continue f' => avail_out (strm f') <> 0 /\ room_left (calls f')
  | Break f' => room_left (calls f') \/ res f' = Some SQUASH_BUFFER_FULL
  | Indeterminate _ => True
  end.
Proof.
  intros Hnxt Hz Hroom. unfold iteration.
  assert (Hg : avail_out (strm (dispatch' funcs op f)) <> 0 ->
               room_left (calls (dispatch' funcs op f))).
  { intros Hz'.
    destruct (dispatch_calls funcs op f) as [[-> _] | (c & -> & _ & Hc)].
    - exact Hroom.
    - apply Forall_app. split; [exact Hroom|].
      repeat constructor. rewrite Hc. exact Hz'. }
  revert Hg. generalize (dispatch' funcs op f). intros g Hg.
  unfold check_sbb. rewrite Hnxt. simpl.
  destruct (Z.eqb_spec (avail_out (strm g)) 0) as [Hz'|Hz'].
  - rewrite interpret_buffer_full by reflexivity. right. reflexivity.
  - pose proof (interpret_calls g) as Hc.
    pose proof (interpret_avail_out g) as Ha.
    destruct (interpret g) as [f'|f'|f']; auto.
    + rewrite Hc, Ha. auto.
    + rewrite Hc. auto.
Qed.

(** With a [next_out] that is not [NULL] and an [avail_out] of 0, a
    call in which some entry point used the probe byte up returns
    [SQUASH_BUFFER_FULL]. *)
Lemma probe_written_is_buffer_full (s s' : Stream) op made r c :
  avail_out s = 0 ->
  next_out s <> NULL ->
  engine s op = (made, Returns r s') ->
  In c made ->
  avail_out (handed_back c) = 0 ->
  r = SQUASH_BUFFER_FULL.
Proof.
  intros Hz Hnull Heq Hin Hc.
  destruct (engine_cases s op) as [(H & _) | [H | (_ & _ & H)]];
    rewrite H in Heq; clear H.
  - inversion Heq; subst. destruct Hin.
  - inversion Heq; subst. destruct Hin.
  - apply conclude_returns in Heq.
    destruct Heq as (f & He & Hres & Hcalls & _).
    assert (Hnxt : is_null (saved_next_out s) = false).
    { unfold saved_next_out. rewrite Hz. simpl.
      destruct (next_out s); [contradiction|reflexivity]. }
    assert (Hloop :
              match loop (Z.to_nat (op + 1 - operation_of_state (state s)))
                         (squash_codec_get_funcs (codec s)) op
                         (saved_next_out s)
                         (mkFrame (place_probe s) None
                                  (operation_of_state (state s)) []) with
              | Exits f' =>
                  room_left (calls f') \/ res f' = Some SQUASH_BUFFER_FULL
              | Undefined _ => True
              | Unfinished _ => True
              end).
    { apply (escalate_rule
               (fun f => avail_out (strm f) <> 0 /\ room_left (calls f))).
      - intros g [Hg1 Hg2] _. apply turn_probe; assumption.
      - intros g [_ Hg] _. left. exact Hg.
      - simpl. split; [|constructor].
        unfold place_probe. rewrite Hz. simpl. discriminate. }
    rewrite He in Hloop. destruct Hloop as [Hroom | Hfull].
    + exfalso. unfold room_left in Hroom. rewrite Forall_forall in Hroom.
      rewrite <- Hcalls in Hin. exact (Hroom c Hin Hc).
    + rewrite Hfull in Hres. inversion Hres. reflexivity.
Qed.

(** * Beyond the documented scenarios *)

(** ** Which calls return *)

Lemma drive_engine (which : Driver) (s : Stream) :
  call which s = engine s (driver_operation which).
Proof. destruct which; reflexivity. Qed.

(** X1.  A process call and a flush call always return a status, and so
    does a finish call on a stream that is not in state Flushing: [res]
    is assigned before it is compared and the loop ends by its own
    condition or a [break]. *)
Theorem driver_call_returns (which : Driver) (s : Stream) :
  ~ (which = Finish /\ state s = SQUASH_STREAM_STATE_FLUSHING) ->
  exists made r s',
    drive squash_codec_get_funcs squash_buffer_stream_process
          squash_buffer_stream_finish which s
    = (made, Returns r s').
Proof.
  intros Hnot. rewrite drive_engine.
  apply engine_returns.
  - destruct which; simpl; lia.
  - intros [Hop Hst]. apply Hnot. split; [|exact Hst].
    destruct which; simpl in Hop; try discriminate. reflexivity.
Qed.

(** ** The state a status goes with *)

(** The end of a turn, in terms of the frame [g] the [if / else if]
    chain produced. *)
Lemma tail_verdict nxt (g : Frame Ext SquashObject) :
  match interpret (check_sbb nxt g) with
  | Continue f' =>
      f' = mkFrame (set_state SQUASH_STREAM_STATE_IDLE (strm g))
                   (Some SQUASH_OK) (current_operation g + 1) (calls g)
      /\ current_operation g <> 2
      /\ res g = Some SQUASH_OK
  | Break f' =>
      calls f' = calls g
      /\ exists r,
          res f' = Some r
          /\ match r with
             | SQUASH_PROCESSING =>
                 strm f' = in_progress_state (current_operation g) (strm g)
                 /\ res g = Some r
             | SQUASH_END_OF_STREAM =>
                 strm f' = set_state SQUASH_STREAM_STATE_FINISHED (strm g)
                 /\ res g = Some r
             | SQUASH_OK =>
                 strm f' = set_state SQUASH_STREAM_STATE_FINISHED (strm g)
                 /\ current_operation g = 2
                 /\ res g = Some r
             | _ =>
                 strm f' = strm g
                 /\ (r = SQUASH_BUFFER_FULL \/ res g = Some r)
             end
  | Indeterminate _ => res g = None
  end.
Proof.
  destruct g as [s r cur cs]. unfold check_sbb, interpret. simpl.
  destruct (negb (is_null nxt)); [destruct (avail_out s =? 0)|];
    simpl; rewrite ?andb_false_r;
    try (split; [reflexivity|]; eexists; split; [reflexivity|];
         simpl; auto);
    (destruct r as [[| | | | | |code]|]; simpl;
     rewrite ?andb_false_r, ?andb_true_r; simpl; auto;
     try (destruct (Z.eqb_spec cur 2); simpl; auto);
     try (split; [reflexivity|]; eexists; split; [reflexivity|];
          simpl; auto)).
Qed.

(** On the way to a higher level, the Flush level is an empty turn as
    far as the [if / else if] chain goes. *)
Lemma dispatch_flush_level_passed funcs op f :
  current_operation f = 1 -> op <> 1 -> dispatch' funcs op f = f.
Proof.
  intros Hcur Hop. unfold dispatch. rewrite Hcur.
  replace (1 =? op) with false by (symmetry; apply Z.eqb_neq; congruence).
  reflexivity.
Qed.

Lemma epilogue_untouched a_in a_out nxt (x : Stream) :
  state (epilogue a_in a_out nxt x) = state x
  /\ codec (epilogue a_in a_out nxt x) = codec x
  /\ options (epilogue a_in a_out nxt x) = options x
  /\ user_data (epilogue a_in a_out nxt x) = user_data x
  /\ destroy_user_data (epilogue a_in a_out nxt x) = destroy_user_data x
  /\ next_in (epilogue a_in a_out nxt x) = next_in x
  /\ avail_in (epilogue a_in a_out nxt x) = avail_in x.
Proof.
  unfold epilogue. destruct (negb (is_null nxt)); simpl; repeat split.
Qed.

Lemma engine_state_after (which : Driver) (s s' : Stream) made r :
  engine s (driver_operation which) = (made, Returns r s') ->
  state_after which r (state s').
Proof.
  intros Heq.
  assert (Hop : 0 <= driver_operation which <= 2)
    by (destruct which; simpl; lia).
  destruct (engine_cases s (driver_operation which))
    as [(H & _) | [H | (Hcur & _ & H)]];
    rewrite H in Heq; clear H.
  - inversion Heq; subst. exact I.
  - inversion Heq; subst. exact I.
  - apply conclude_returns in Heq.
    destruct Heq as (f & He & Hres & _ & ->).
    destruct (epilogue_untouched (avail_in s) (avail_out s)
                (saved_next_out s) (strm f)) as (-> & _).
    pose proof (operation_of_state_bounds (state s)) as Hb.
    assert (Hloop :
              match loop (Z.to_nat (driver_operation which + 1
                                    - operation_of_state (state s)))
                         (squash_codec_get_funcs (codec s))
                         (driver_operation which) (saved_next_out s)
                         (mkFrame (place_probe s) None
                                  (operation_of_state (state s)) []) with
              | Exits f' =>
                  exists r', res f' = Some r'
                             /\ state_after which r' (state (strm f'))
              | Undefined _ => True
              | Unfinished _ => True
              end).
    { apply (escalate_rule
               (fun f =>
                  0 <= current_operation f
                  /\ (res f = None \/ res f = Some SQUASH_OK)
                  /\ (driver_operation which < current_operation f ->
                      res f = Some SQUASH_OK
                      /\ state (strm f) = SQUASH_STREAM_STATE_IDLE
                      /\ driver_operation which < 2))).
      - intros g (Hg0 & Hgres & _) Hle. unfold iteration.
        pose proof (tail_verdict (saved_next_out s)
                      (dispatch' (squash_codec_get_funcs (codec s))
                                 (driver_operation which) g)) as Hv.
        rewrite dispatch_current_operation in Hv.
        destruct (interpret _) as [f'|f'|f'].
        + destruct Hv as (-> & Hne & _). simpl.
          repeat split; auto; lia.
        + destruct Hv as (_ & r' & Hr' & Hv). exists r'.
          split; [exact Hr'|].
          destruct r'; simpl; try exact I.
          * destruct Hv as (-> & Hc2 & _). simpl.
            destruct which; simpl in *; try lia. reflexivity.
          * destruct Hv as (-> & Hd). unfold in_progress_state.
            destruct (Z.eqb_spec (current_operation g) 0); simpl; [auto|].
            destruct (Z.eqb_spec (current_operation g) 1) as [H1|H1]; simpl.
            { right. left. split; [|reflexivity].
              destruct which; simpl in *; try reflexivity.
              - lia.
              - rewrite dispatch_flush_level_passed in Hd by (auto; lia).
                destruct Hgres as [Hn | Hn]; rewrite Hn in Hd; discriminate. }
            destruct (Z.eqb_spec (current_operation g) 2) as [H2|H2]; simpl.
            { right. right. split; [|reflexivity].
              destruct which; simpl in *; try lia. reflexivity. }
            lia.
          * destruct Hv as (-> & _). reflexivity.
        + exact I.
      - intros g (_ & _ & Hexit) Hgt.
        destruct (Hexit Hgt) as (Hr' & Hst & Hlt).
        exists SQUASH_OK. split; [exact Hr'|]. simpl. rewrite Hst.
        destruct which; simpl in *; try reflexivity. lia.
      - simpl. repeat split; auto; lia. }
    rewrite He in Hloop. destruct Hloop as (r' & Hr' & Hst).
    rewrite Hres in Hr'. inversion Hr'; subst. exact Hst.
Qed.

(** X2.  The status of a call tells the state the stream is left in.
    [SQUASH_OK] from process or flush: Idle; [SQUASH_OK] from finish:
    Finished; [SQUASH_END_OF_STREAM]: Finished; [SQUASH_PROCESSING]:
    Running, or the in-progress state of the request itself (Flushing for
    a flush, Finishing for a finish). *)
Theorem status_tells_state (which : Driver) (s s' : Stream)
    (made : list (Call Ext SquashObject)) (r : SquashStatus) :
  drive squash_codec_get_funcs squash_buffer_stream_process
        squash_buffer_stream_finish which s
  = (made, Returns r s') ->
  state_after which r (state s').
Proof.
  rewrite drive_engine. apply engine_state_after.
Qed.

(** ** Which entry points a request reaches *)

(** The [if / else if] chain makes at most one call; the callee belongs
    to the level of the turn and is one the request may reach. *)
Lemma dispatch_one_call funcs (which : Driver) f :
  current_operation f <= driver_operation which ->
  calls (dispatch' funcs (driver_operation which) f) = calls f
  \/ exists c,
      calls (dispatch' funcs (driver_operation which) f) = calls f ++ [c]
      /\ callee_level (callee c) = current_operation f
      /\ call_expected funcs which c.
Proof.
  intros Hle. unfold dispatch.
  destruct (Z.eqb_spec (current_operation f) 0) as [H0|H0].
  { destruct ((avail_in (strm f) =? 0)
              && state_eqb (state (strm f)) SQUASH_STREAM_STATE_IDLE);
      [left; reflexivity|].
    destruct (process_stream funcs) eqn:Hp; rewrite invoke_spec; simpl;
      right; eexists; (split; [reflexivity|]); (split; [auto|]);
      unfold call_expected; simpl; congruence. }
  destruct (Z.eqb_spec (current_operation f) 1) as [H1|H1].
  { destruct (Z.eqb_spec (current_operation f) (driver_operation which))
      as [Heq|Hne]; [|left; reflexivity].
    destruct (flush_stream funcs) eqn:Hfl; [|left; reflexivity].
    rewrite invoke_spec; simpl. right. eexists.
    split; [reflexivity|]. split; [auto|].
    unfold call_expected; simpl. split; [|congruence].
    destruct which; simpl in *; try lia. reflexivity. }
  destruct (Z.eqb_spec (current_operation f) 2) as [H2|H2];
    [|left; reflexivity].
  assert (Hw : which = Finish)
    by (destruct which; simpl in *; try lia; reflexivity).
  destruct (finish_stream funcs) eqn:Hfi.
  - rewrite invoke_spec; simpl.
    destruct (snd (s (strm f))); simpl;
      right; eexists; (split; [reflexivity|]); (split; [auto|]);
      unfold call_expected; simpl; split; congruence.
  - destruct (process_stream funcs) eqn:Hp; [left; reflexivity|].
    rewrite invoke_spec; simpl.
    destruct (snd (squash_buffer_stream_finish (strm f))); simpl;
      right; eexists; (split; [reflexivity|]); (split; [auto|]);
      unfold call_expected; simpl; auto.
Qed.

Lemma StronglySorted_snoc (l : list Z) (y : Z) :
  StronglySorted Z.lt l ->
  Forall (fun x => x < y) l ->
  StronglySorted Z.lt (l ++ [y]).
Proof.
  induction l as [|x l IH]; intros Hs Hf; simpl.
  - repeat constructor.
  - inversion Hs; subst. inversion Hf; subst.
    constructor; [auto|].
    apply Forall_app. split; [assumption|]. repeat constructor. assumption.
Qed.

Lemma engine_call_discipline (which : Driver) (s : Stream) made out :
  engine s (driver_operation which) = (made, out) ->
  Forall (call_expected (squash_codec_get_funcs (codec s)) which) made
  /\ StronglySorted Z.lt (map (fun c => callee_level (callee c)) made).
Proof.
  intros Heq.
  destruct (engine_cases s (driver_operation which))
    as [(H & _) | [H | (Hcur & _ & H)]];
    rewrite H in Heq; clear H.
  - inversion Heq; subst. split; constructor.
  - inversion Heq; subst. split; constructor.
  - assert (Hloop :
              match loop (Z.to_nat (driver_operation which + 1
                                    - operation_of_state (state s)))
                         (squash_codec_get_funcs (codec s))
                         (driver_operation which) (saved_next_out s)
                         (mkFrame (place_probe s) None
                                  (operation_of_state (state s)) []) with
              | Exits f' | Undefined f' =>
                  Forall (call_expected (squash_codec_get_funcs (codec s))
                                        which) (calls f')
                  /\ StronglySorted Z.lt
                       (map (fun c => callee_level (callee c)) (calls f'))
              | Unfinished _ => True
              end).
    { apply (escalate_rule
               (fun f =>
                  Forall (call_expected (squash_codec_get_funcs (codec s))
                                        which) (calls f)
                  /\ StronglySorted Z.lt
                       (map (fun c => callee_level (callee c)) (calls f))
                  /\ Forall (fun c => callee_level (callee c)
                                      < current_operation f) (calls f))).
      - intros g (Hexp & Hsort & Hlow) Hle. unfold iteration.
        assert (Hd :
                  Forall (call_expected (squash_codec_get_funcs (codec s))
                                        which)
                         (calls (dispatch' (squash_codec_get_funcs (codec s))
                                           (driver_operation which) g))
                  /\ StronglySorted Z.lt
                       (map (fun c => callee_level (callee c))
                            (calls (dispatch'
                                      (squash_codec_get_funcs (codec s))
                                      (driver_operation which) g)))
                  /\ Forall (fun c => callee_level (callee c)
                                      < current_operation g + 1)
                            (calls (dispatch'
                                      (squash_codec_get_funcs (codec s))
                                      (driver_operation which) g))).
        { destruct (dispatch_one_call (squash_codec_get_funcs (codec s))
                                      which g Hle)
            as [-> | (c & -> & Hlvl & Hc)].
          - repeat split; auto.
            eapply Forall_impl; [|exact Hlow]. simpl. intros; lia.
          - repeat split.
            + apply Forall_app. split; [exact Hexp|]. repeat constructor.
              exact Hc.
            + rewrite map_app. simpl. apply StronglySorted_snoc; auto.
              rewrite Forall_map, Hlvl. exact Hlow.
            + apply Forall_app. split.
              * eapply Forall_impl; [|exact Hlow]. simpl. intros; lia.
              * repeat constructor. lia. }
        pose proof (tail_verdict (saved_next_out s)
                      (dispatch' (squash_codec_get_funcs (codec s))
                                 (driver_operation which) g)) as Hv.
        pose proof (interpret_calls
                      (check_sbb (saved_next_out s)
                         (dispatch' (squash_codec_get_funcs (codec s))
                                    (driver_operation which) g))) as Hc.
        rewrite check_sbb_calls in Hc.
        rewrite dispatch_current_operation in Hv.
        destruct Hd as (Hd1 & Hd2 & Hd3).
        destruct (interpret _) as [f'|f'|f'].
        + destruct Hv as (-> & _). simpl. auto.
        + rewrite Hc. auto.
        + rewrite Hc. auto.
      - intros g (Hexp & Hsort & _) _. auto.
      - simpl. repeat split; constructor. }
    pose proof (engine_turns_suffice s (driver_operation which)
                  (saved_next_out s)) as Hfuel.
    destruct (loop _ _ _ _ _) as [f|f|f].
    + simpl in Heq. destruct (res f); inversion Heq; subst; exact Hloop.
    + simpl in Heq. inversion Heq; subst. exact Hloop.
    + exfalso. apply (Hfuel f). reflexivity.
Qed.

(** X3.  A request only reaches the entry points that belong to it.
    The codec's process entry point is called only if the codec has one,
    and the buffering adapter's only if it has none; the flush entry
    point is called by flush requests only (never on the way to a
    finish); the finish entry points are called by finish requests only,
    the adapter's only for a codec with neither finish nor process. *)
Theorem calls_belong_to_request (which : Driver) (s : Stream)
    (made : list (Call Ext SquashObject)) (out : Outcome Ext SquashObject) :
  drive squash_codec_get_funcs squash_buffer_stream_process
        squash_buffer_stream_finish which s
  = (made, out) ->
  Forall (call_expected (squash_codec_get_funcs (codec s)) which) made.
Proof.
  rewrite drive_engine. intros H.
  apply (engine_call_discipline which s made out H).
Qed.

(** X4.  Within one request the levels of the calls made go strictly
    up: each of Process, Flush and Finish is entered at most once, in
    that order. *)
Theorem calls_escalate (which : Driver) (s : Stream)
    (made : list (Call Ext SquashObject)) (out : Outcome Ext SquashObject) :
  drive squash_codec_get_funcs squash_buffer_stream_process
        squash_buffer_stream_finish which s
  = (made, out) ->
  StronglySorted Z.lt (map (fun c => callee_level (callee c)) made).
Proof.
  rewrite drive_engine. intros H.
  apply (engine_call_discipline which s made out H).
Qed.

(** ** The probe, seen from the drivers *)

(** X5.  A call made with an [avail_out] of 0 and a [next_out] that is
    not [NULL] gives the caller's output cursor back: on return
    [next_out] is the caller's pointer and [avail_out] is 0, whatever
    the entry points did with the probe. *)
Theorem probe_never_shown (which : Driver) (s s' : Stream)
    (made : list (Call Ext SquashObject)) (r : SquashStatus) :
  avail_out s = 0 ->
  next_out s <> NULL ->
  drive squash_codec_get_funcs squash_buffer_stream_process
        squash_buffer_stream_finish which s
  = (made, Returns r s') ->
  next_out s' = next_out s /\ avail_out s' = 0.
Proof.
  intros Hz Hnull. rewrite drive_engine.
  apply probe_taken_back; assumption.
Qed.

(** X6.  In such a call, as soon as an entry point leaves no room in the
    probe the call returns [SQUASH_BUFFER_FULL], whatever status that
    entry point returned. *)
Theorem probe_written_returns_buffer_full (which : Driver) (s s' : Stream)
    (made : list (Call Ext SquashObject)) (r : SquashStatus)
    (c : Call Ext SquashObject) :
  avail_out s = 0 ->
  next_out s <> NULL ->
  drive squash_codec_get_funcs squash_buffer_stream_process
        squash_buffer_stream_finish which s
  = (made, Returns r s') ->
  In c made ->
  avail_out (handed_back c) = 0 ->
  r = SQUASH_BUFFER_FULL.
Proof.
  intros Hz Hnull. rewrite drive_engine.
  apply probe_written_is_buffer_full; assumption.
Qed.

(** ** Byte totals on [size_t] *)

(** X7.  With entry points that leave the totals alone, every call that
    returns moves [total_in] and [total_out] by the difference between
    the remaining lengths the caller passed and the ones it gets back,
    computed on [size_t]: no assumption on how the entry points move the
    cursors, on the probe or on overflow. *)
Theorem totals_move_modulo (which : Driver) (s s' : Stream)
    (made : list (Call Ext SquashObject)) (r : SquashStatus) :
  plugins_satisfy keeps_totals (squash_codec_get_funcs (codec s))
                  squash_buffer_stream_process squash_buffer_stream_finish ->
  in_size_t (total_in s) ->
  in_size_t (total_out s) ->
  drive squash_codec_get_funcs squash_buffer_stream_process
        squash_buffer_stream_finish which s
  = (made, Returns r s') ->
  total_in s' = size_wrap (total_in s + (avail_in s - avail_in s'))
  /\ total_out s' = size_wrap (total_out s + (avail_out s - avail_out s')).
Proof.
  intros (Hp & Hfl & Hfi & Hbp & Hbf) Rti Rto. rewrite drive_engine.
  apply totals_follow_cursors_modulo; try assumption.
  intros fn [H | [H | [H | [H | [H | []]]]]].
  - apply Hp. exact H.
  - apply Hfl. exact H.
  - apply Hfi. exact H.
  - inversion H; subst. exact Hbp.
  - inversion H; subst. exact Hbf.
Qed.

(** ** Nothing to do *)

(** X8.  A process call on an Idle stream with no input left does
    nothing at all when the output cursor is in order ([next_out] not
    [NULL] if [avail_out] is 0): it calls no entry point, returns
    [SQUASH_OK] and hands back the very same stream. *)
Theorem process_without_input_is_noop (s : Stream) :
  state s = SQUASH_STREAM_STATE_IDLE ->
  avail_in s = 0 ->
  in_size_t (total_in s) ->
  in_size_t (total_out s) ->
  (avail_out s = 0 -> next_out s <> NULL) ->
  squash_stream_process squash_codec_get_funcs
    squash_buffer_stream_process squash_buffer_stream_finish s
  = ([], Returns SQUASH_OK s).
Proof.
  intros Hst Hin Rti Rto Hnull.
  destruct s as [bo pr ni ai ti no ao to co op sty st ud dud ex].
  simpl in *. subst st ai.
  unfold squash_stream_process, squash_stream_process_internal,
    saved_next_out, place_probe. simpl.
  destruct (Z.eqb_spec ao 0) as [Hz|Hz]; simpl.
  - subst ao. destruct no as [|b ofs]; [exfalso; apply Hnull; reflexivity|].
    unfold iteration, dispatch, check_sbb, interpret. simpl.
    unfold epilogue. cbn -[size_add size_sub size_wrap].
    rewrite !size_add_sub.
    rewrite !Z.sub_diag, !Z.add_0_r, !size_wrap_small by assumption.
    reflexivity.
  - unfold iteration, dispatch, check_sbb, interpret. simpl.
    unfold epilogue. cbn -[size_add size_sub size_wrap].
    rewrite !size_add_sub.
    rewrite !Z.sub_diag, !Z.add_0_r, !size_wrap_small by assumption.
    reflexivity.
Qed.

(** ** Failure codes *)

(** Where the status the chain leaves in [res] comes from. *)
Lemma dispatch_verdict funcs op f :
  dispatch' funcs op f = f
  \/ res (dispatch' funcs op f) = Some SQUASH_OK
  \/ res (dispatch' funcs op f) = Some SQUASH_INVALID_OPERATION
  \/ exists c,
      calls (dispatch' funcs op f) = calls f ++ [c]
      /\ handed_back c = strm (dispatch' funcs op f)
      /\ res (dispatch' funcs op f) = Some (returned c).
Proof.
  unfold dispatch.
  repeat match goal with
         | |- context [if ?b then _ else _] => destruct b
         | |- context [match process_stream ?x with _ => _ end] =>
             destruct (process_stream x)
         | |- context [match flush_stream ?x with _ => _ end] =>
             destruct (flush_stream x)
         | |- context [match finish_stream ?x with _ => _ end] =>
             destruct (finish_stream x)
         end;
    rewrite ?invoke_spec; simpl; auto;
    match goal with
    | |- context [match ?r with _ => _ end] =>
        destruct r eqn:Hr; simpl; auto;
        right; right; right; eexists; repeat split; simpl;
        rewrite ?Hr; reflexivity
    | _ => right; right; right; eexists; repeat split; reflexivity
    end.
Qed.

Lemma engine_failure_source (s s' : Stream) op made code :
  engine s op = (made, Returns (SQUASH_FAILURE code) s') ->
  exists earlier c,
    made = earlier ++ [c]
    /\ returned c = SQUASH_FAILURE code
    /\ state s' = state (handed_back c)
    /\ next_in s' = next_in (handed_back c)
    /\ avail_in s' = avail_in (handed_back c).
Proof.
  intros Heq.
  destruct (engine_cases s op) as [(H & _) | [H | (_ & _ & H)]];
    rewrite H in Heq; clear H; try discriminate.
  apply conclude_returns in Heq.
  destruct Heq as (f & He & Hres & Hcalls & ->).
  assert (Hloop :
            match loop (Z.to_nat (op + 1 - operation_of_state (state s)))
                       (squash_codec_get_funcs (codec s)) op
                       (saved_next_out s)
                       (mkFrame (place_probe s) None
                                (operation_of_state (state s)) []) with
            | Exits f' =>
                forall code',
                  res f' = Some (SQUASH_FAILURE code') ->
                  exists earlier c,
                    calls f' = earlier ++ [c]
                    /\ returned c = SQUASH_FAILURE code'
                    /\ strm f' = handed_back c
            | Undefined _ => True
            | Unfinished _ => True
            end).
  { apply (escalate_rule
             (fun f => res f = None \/ res f = Some SQUASH_OK)).
    - intros g Hg _. unfold iteration.
      pose proof (tail_verdict (saved_next_out s)
                    (dispatch' (squash_codec_get_funcs (codec s)) op g))
        as Hv.
      destruct (interpret _) as [f'|f'|f'].
      + destruct Hv as (-> & _). simpl. auto.
      + destruct Hv as (Hc & r' & Hr' & Hv).
        intros code' Hcode. rewrite Hr' in Hcode.
        inversion Hcode; subst r'. simpl in Hv.
        destruct Hv as (Hs & [Hbf | Hd]); [discriminate|].
        destruct (dispatch_verdict (squash_codec_get_funcs (codec s)) op g)
          as [Hsame | [Hok | [Hinv | (c & Hcs & Hhb & Hrc)]]].
        * rewrite Hsame in Hd.
          destruct Hg as [Hn | Hn]; rewrite Hn in Hd; discriminate.
        * rewrite Hok in Hd. discriminate.
        * rewrite Hinv in Hd. discriminate.
        * rewrite Hrc in Hd. inversion Hd.
          exists (calls g), c. rewrite Hc, Hs. auto.
      + exact I.
    - intros g Hg _ code' Hcode.
      destruct Hg as [Hn | Hn]; rewrite Hn in Hcode; discriminate.
    - left. reflexivity. }
  rewrite He in Hloop. destruct (Hloop code Hres) as (earlier & c & H1 & H2 & H3).
  exists earlier, c. rewrite <- Hcalls, <- H3.
  destruct (epilogue_untouched (avail_in s) (avail_out s) (saved_next_out s)
                               (strm f)) as (-> & _ & _ & _ & _ & -> & ->).
  auto.
Qed.

(** X9.  The engine makes no failure code of its own other than
    [SQUASH_STATE], [SQUASH_INVALID_OPERATION] and [SQUASH_BUFFER_FULL]:
    any other failure a call returns is what the last entry point it
    called returned, and the state and the input cursor are as that
    entry point left them. *)
Theorem failure_comes_from_last_call (which : Driver) (s s' : Stream)
    (made : list (Call Ext SquashObject)) (code : Z) :
  drive squash_codec_get_funcs squash_buffer_stream_process
        squash_buffer_stream_finish which s
  = (made, Returns (SQUASH_FAILURE code) s') ->
  exists earlier c,
    made = earlier ++ [c]
    /\ returned c = SQUASH_FAILURE code
    /\ state s' = state (handed_back c)
    /\ next_in s' = next_in (handed_back c)
    /\ avail_in s' = avail_in (handed_back c).
Proof.
  rewrite drive_engine. apply engine_failure_source.
Qed.

(** ** After the end of the stream *)

Lemma engine_on_finished (s : Stream) (which : Driver) :
  state s = SQUASH_STREAM_STATE_FINISHED ->
  exists r,
    engine s (driver_operation which) = ([], Returns r s)
    /\ (r = SQUASH_STATE \/ r = SQUASH_INVALID_OPERATION).
Proof.
  intros Hst. unfold squash_stream_process_internal. rewrite Hst.
  destruct which; simpl; eauto.
  destruct (flush_stream (squash_codec_get_funcs (codec s))); eauto.
Qed.

(** X10.  Once a call has reported the end of the stream, by
    [SQUASH_END_OF_STREAM] or by [SQUASH_OK] from finish, every further
    call is turned down with [SQUASH_STATE] or
    [SQUASH_INVALID_OPERATION]; it calls no entry point and hands the
    stream back as it was. *)
Theorem ended_stream_stays_ended (which next : Driver) (s s' : Stream)
    (made : list (Call Ext SquashObject)) (r : SquashStatus) :
  drive squash_codec_get_funcs squash_buffer_stream_process
        squash_buffer_stream_finish which s
  = (made, Returns r s') ->
  r = SQUASH_END_OF_STREAM \/ (which = Finish /\ r = SQUASH_OK) ->
  exists r',
    drive squash_codec_get_funcs squash_buffer_stream_process
          squash_buffer_stream_finish next s'
    = ([], Returns r' s')
    /\ (r' = SQUASH_STATE \/ r' = SQUASH_INVALID_OPERATION).
Proof.
  intros Hcall Hend. rewrite drive_engine in Hcall.
  apply engine_state_after in Hcall.
  rewrite drive_engine. apply engine_on_finished.
  destruct Hend as [-> | [-> ->]]; exact Hcall.
Qed.

(** ** Sessions on a codec that cannot flush *)

Lemma engine_stays_out_of_flushing (which : Driver) (s s' : Stream) made r :
  plugins_satisfy keeps_state (squash_codec_get_funcs (codec s))
                  squash_buffer_stream_process squash_buffer_stream_finish ->
  flush_stream (squash_codec_get_funcs (codec s)) = None ->
  state s <> SQUASH_STREAM_STATE_FLUSHING ->
  engine s (driver_operation which) = (made, Returns r s') ->
  state s' <> SQUASH_STREAM_STATE_FLUSHING /\ codec s' = codec s.
Proof.
  intros (Hp & Hfl & Hfi & Hbp & Hbf) Hnone Hst Heq.
  destruct (engine_cases s (driver_operation which))
    as [(H & _) | [H | (_ & Hflush & H)]];
    rewrite H in Heq; clear H.
  - inversion Heq; subst. auto.
  - inversion Heq; subst. auto.
  - assert (Hop : driver_operation which <> 1).
    { intros H1. apply (Hflush H1). exact Hnone. }
    apply conclude_returns in Heq. destruct Heq as (f & He & _ & _ & ->).
    destruct (epilogue_untouched (avail_in s) (avail_out s)
                (saved_next_out s) (strm f)) as (-> & -> & _).
    assert (Hloop :
              match loop (Z.to_nat (driver_operation which + 1
                                    - operation_of_state (state s)))
                         (squash_codec_get_funcs (codec s))
                         (driver_operation which) (saved_next_out s)
                         (mkFrame (place_probe s) None
                                  (operation_of_state (state s)) []) with
              | Exits f' =>
                  state (strm f') <> SQUASH_STREAM_STATE_FLUSHING
                  /\ codec (strm f') = codec s
              | Undefined _ => True
              | Unfinished _ => True
              end).
    { apply (escalate_rule
               (fun f => (state (strm f) <> SQUASH_STREAM_STATE_FLUSHING
                          /\ codec (strm f) = codec s)
                         /\ (res f = None \/ res f = Some SQUASH_OK))).
      - intros g ((Hgs & Hgc) & Hgres) _. unfold iteration.
        assert (Hd : state (strm (dispatch' (squash_codec_get_funcs (codec s))
                                            (driver_operation which) g))
                     = state (strm g)
                     /\ codec (strm (dispatch'
                                       (squash_codec_get_funcs (codec s))
                                       (driver_operation which) g))
                        = codec (strm g)).
        { apply (dispatch_keeps
                   (fun x => state x = state (strm g)
                             /\ codec x = codec (strm g))).
          - intros fn Hfn x [Hx1 Hx2].
            destruct (Hp fn Hfn x) as [-> ->]. auto.
          - intros fn Hfn x [Hx1 Hx2].
            destruct (Hfl fn Hfn x) as [-> ->]. auto.
          - intros fn Hfn x [Hx1 Hx2].
            destruct (Hfi fn Hfn x) as [-> ->]. auto.
          - intros x [Hx1 Hx2]. destruct (Hbp x) as [-> ->]. auto.
          - intros x [Hx1 Hx2]. destruct (Hbf x) as [-> ->]. auto.
          - auto. }
        destruct Hd as [Hds Hdc].
        pose proof (tail_verdict (saved_next_out s)
                      (dispatch' (squash_codec_get_funcs (codec s))
                                 (driver_operation which) g)) as Hv.
        rewrite dispatch_current_operation in Hv.
        destruct (interpret _) as [f'|f'|f'].
        + destruct Hv as (-> & _). simpl. rewrite Hdc.
          repeat split; auto. discriminate.
        + destruct Hv as (_ & r' & _ & Hv).
          destruct r'; simpl in Hv;
            try (destruct Hv as (-> & _); simpl; rewrite ?Hds, ?Hdc;
                 split; [try discriminate; assumption | assumption]).
          destruct Hv as (-> & Hr). unfold in_progress_state.
          destruct (Z.eqb_spec (current_operation g) 0); simpl;
            [rewrite Hdc; split; [discriminate|assumption]|].
          destruct (Z.eqb_spec (current_operation g) 1) as [H1|H1]; simpl.
          { rewrite dispatch_flush_level_passed in Hr by assumption.
            destruct Hgres as [Hn | Hn]; rewrite Hn in Hr; discriminate. }
          destruct (Z.eqb_spec (current_operation g) 2); simpl;
            rewrite ?Hds, ?Hdc; split; try discriminate; assumption.
        + exact I.
      - intros g (Hg & _) _. exact Hg.
      - simpl. split; [|auto]. unfold place_probe.
        destruct (avail_out s =? 0); simpl; auto. }
    rewrite He in Hloop. exact Hloop.
Qed.

(** X11.  On a codec without a flush entry point whose entry points
    leave [state] and [codec] alone, a stream that is not in state
    Flushing never gets there: in any session of process, flush and
    finish calls, with the caller moving the cursors in between, every
    call returns (none compares an unassigned [res]) and the stream ends
    in a state other than Flushing. *)
Theorem session_without_flush_entry (acts : list Action) (s : Stream) :
  plugins_satisfy keeps_state (squash_codec_get_funcs (codec s))
                  squash_buffer_stream_process squash_buffer_stream_finish ->
  flush_stream (squash_codec_get_funcs (codec s)) = None ->
  state s <> SQUASH_STREAM_STATE_FLUSHING ->
  exists s',
    session squash_codec_get_funcs squash_buffer_stream_process
            squash_buffer_stream_finish acts s
    = Some s'
    /\ state s' <> SQUASH_STREAM_STATE_FLUSHING
    /\ codec s' = codec s.
Proof.
  revert s. induction acts as [|a acts IH]; intros s Hplug Hnone Hst.
  - exists s. auto.
  - destruct a as [which | input n_in output n_out]; simpl.
    + destruct (engine_returns s (driver_operation which))
        as (made & r & s1 & Hrun).
      { destruct which; simpl; lia. }
      { intros [_ H]. exact (Hst H). }
      rewrite drive_engine, Hrun. simpl.
      destruct (engine_stays_out_of_flushing which s s1 made r
                  Hplug Hnone Hst Hrun) as [Hst1 Hc1].
      destruct (IH s1) as (s' & Hs' & Hst' & Hc').
      * rewrite Hc1. exact Hplug.
      * rewrite Hc1. exact Hnone.
      * exact Hst1.
      * exists s'. rewrite Hc', Hc1. auto.
    + apply (IH (supply input n_in output n_out s)); assumption.
Qed.

(** ** Destruction *)

Variable squash_object_unref : SquashOptions -> SquashOptions.

Lemma engine_owner_fields (s s' : Stream) op made r :
  plugins_satisfy keeps_owner_fields (squash_codec_get_funcs (codec s))
                  squash_buffer_stream_process squash_buffer_stream_finish ->
  engine s op = (made, Returns r s') ->
  options s' = options s
  /\ user_data s' = user_data s
  /\ destroy_user_data s' = destroy_user_data s.
Proof.
  intros (Hp & Hfl & Hfi & Hbp & Hbf) Heq.
  destruct (engine_cases s op) as [(H & _) | [H | (_ & _ & H)]];
    rewrite H in Heq; clear H.
  - inversion Heq; subst. auto.
  - inversion Heq; subst. auto.
  - apply conclude_returns in Heq. destruct Heq as (f & He & _ & _ & ->).
    destruct (epilogue_untouched (avail_in s) (avail_out s)
                (saved_next_out s) (strm f))
      as (_ & _ & -> & -> & -> & _).
    assert (Hloop :
              match loop (Z.to_nat (op + 1 - operation_of_state (state s)))
                         (squash_codec_get_funcs (codec s)) op
                         (saved_next_out s)
                         (mkFrame (place_probe s) None
                                  (operation_of_state (state s)) []) with
              | Exits f' | Undefined f' =>
                  options (strm f') = options s
                  /\ user_data (strm f') = user_data s
                  /\ destroy_user_data (strm f') = destroy_user_data s
              | Unfinished _ => True
              end).
    { apply (escalate_keeps
               (fun x => options x = options s
                         /\ user_data x = user_data s
                         /\ destroy_user_data x = destroy_user_data s)).
      - intros st x H. exact H.
      - intros fn Hfn x (H1 & H2 & H3).
        destruct (Hp fn Hfn x) as (-> & -> & ->). auto.
      - intros fn Hfn x (H1 & H2 & H3).
        destruct (Hfl fn Hfn x) as (-> & -> & ->). auto.
      - intros fn Hfn x (H1 & H2 & H3).
        destruct (Hfi fn Hfn x) as (-> & -> & ->). auto.
      - intros x (H1 & H2 & H3). destruct (Hbp x) as (-> & -> & ->). auto.
      - intros x (H1 & H2 & H3). destruct (Hbf x) as (-> & -> & ->). auto.
      - simpl. unfold place_probe. destruct (avail_out s =? 0); simpl; auto. }
    rewrite He in Hloop. exact Hloop.
Qed.

Lemma session_owner_fields (acts : list Action) (s s' : Stream) :
  (forall c,
      plugins_satisfy keeps_owner_fields (squash_codec_get_funcs c)
                      squash_buffer_stream_process
                      squash_buffer_stream_finish) ->
  session squash_codec_get_funcs squash_buffer_stream_process
          squash_buffer_stream_finish acts s
  = Some s' ->
  options s' = options s
  /\ user_data s' = user_data s
  /\ destroy_user_data s' = destroy_user_data s.
Proof.
  intros Hplug. revert s.
  induction acts as [|a acts IH]; intros s Hrun; simpl in Hrun.
  - inversion Hrun; subst. auto.
  - destruct a as [which | input n_in output n_out].
    + rewrite drive_engine in Hrun.
      destruct (engine s (driver_operation which)) as [made out] eqn:Heq.
      simpl in Hrun. destruct out as [r s1 | s1 |]; try discriminate.
      destruct (engine_owner_fields s s1 _ made r (Hplug (codec s)) Heq)
        as (H1 & H2 & H3).
      destruct (IH s1 Hrun) as (-> & -> & ->). auto.
    + destruct (IH _ Hrun) as (-> & -> & ->). auto.
Qed.

(** X12.  No session changes what destroying the stream does.  With
    entry points that leave [options], [user_data] and
    [destroy_user_data] alone, [squash_stream_destroy] after any
    sequence of calls and refills runs the same destructor on the same
    user data, drops the same reference and destroys the object, exactly
    as it would have before the session, whatever state the session
    ended in. *)
Theorem destroy_after_session (acts : list Action) (s s' : Stream) :
  (forall c,
      plugins_satisfy keeps_owner_fields (squash_codec_get_funcs c)
                      squash_buffer_stream_process
                      squash_buffer_stream_finish) ->
  session squash_codec_get_funcs squash_buffer_stream_process
          squash_buffer_stream_finish acts s
  = Some s' ->
  snd (squash_stream_destroy squash_object_unref s')
  = snd (squash_stream_destroy squash_object_unref s).
Proof.
  intros Hplug Hrun.
  destruct (session_owner_fields acts s s' Hplug Hrun) as (Ho & Hu & Hd).
  unfold squash_stream_destroy. rewrite Ho, Hu, Hd.
  destruct (negb (is_null (options s))); reflexivity.
Qed.

(** X13.  A stream that is initialised, driven through any session and
    destroyed without the caller having installed user data runs no
    destructor, and drops one reference on the option group exactly when
    [squash_stream_init] took one: the pointer it unrefs is the one
    [squash_object_ref] returned. *)
Theorem destroy_of_initialised_stream (acts : list Action)
    (memory s' : Stream) (c : SquashCodec) (stream_type : SquashStreamType)
    (opts : SquashOptions) (destroy_notify : SquashDestroyNotify) :
  (forall c,
      plugins_satisfy keeps_owner_fields (squash_codec_get_funcs c)
                      squash_buffer_stream_process
                      squash_buffer_stream_finish) ->
  session squash_codec_get_funcs squash_buffer_stream_process
          squash_buffer_stream_finish acts
          (squash_stream_init squash_object_init squash_object_ref
             memory c stream_type opts destroy_notify)
  = Some s' ->
  snd (squash_stream_destroy squash_object_unref s')
  = (if is_null opts || is_null (squash_object_ref opts) then []
     else [ObjectUnref (squash_object_ref opts)])
    ++ [ObjectDestroy].
Proof.
  intros Hplug Hrun.
  destruct (session_owner_fields acts _ s' Hplug Hrun) as (Ho & Hu & Hd).
  unfold squash_stream_destroy. rewrite Ho, Hu, Hd.
  unfold squash_stream_init. simpl.
  destruct (is_null opts); simpl; [reflexivity|].
  destruct (is_null (squash_object_ref opts)); reflexivity.
Qed.

(** ** The constructors *)

Variable squash_get_codec : string -> option SquashCodec.
Variable squash_options_newv : SquashCodec -> list string -> SquashOptions.
Variable squash_codec_create_stream_with_options :
  SquashCodec -> SquashStreamType -> SquashOptions -> option Stream.

(** X14.  Every stream [squash_stream_new] (through
    [squash_stream_newv]) makes is the stream
    [squash_stream_new_with_options] makes for the same name and type
    out of the option group parsed from the list, and that option group
    is never [NULL]: an unknown name or a [NULL] from the parser ends in
    [NULL], even where [squash_stream_new_with_options] accepts [NULL]
    options. *)
Theorem new_goes_through_new_with_options (name : string)
    (stream_type : SquashStreamType) (options_list : list string)
    (s : Stream) :
  squash_stream_new squash_get_codec squash_options_newv
    squash_codec_create_stream_with_options name stream_type options_list
  = Some s ->
  exists codec_real,
    squash_get_codec name = Some codec_real
    /\ squash_options_newv codec_real options_list <> NULL
    /\ squash_stream_new_with_options squash_get_codec
         squash_codec_create_stream_with_options name stream_type
         (squash_options_newv codec_real options_list)
       = Some s.
Proof.
  unfold squash_stream_new, squash_stream_newv,
    squash_stream_new_with_options.
  destruct (squash_get_codec name) as [codec_real|]; [|discriminate].
  destruct (squash_options_newv codec_real options_list) eqn:Hopts; simpl.
  - discriminate.
  - intros H. exists codec_real. rewrite Hopts.
    repeat split; [discriminate | exact H].
Qed.

(** ** Finish once the input is used up *)

(** X15.  The usual last step: a finish call on an Idle stream with no
    input left and room for output makes one call, to the codec's
    finish entry point, on the stream exactly as the caller passed it.
    [SQUASH_OK] and [SQUASH_END_OF_STREAM] from it both come back as
    [SQUASH_OK] with the stream Finished, [SQUASH_PROCESSING] comes back
    with the stream Finishing, and anything else comes back unchanged
    with the state as the entry point left it. *)
Theorem finish_after_all_input (s : Stream)
    (fn : StreamFunc Ext SquashObject) :
  state s = SQUASH_STREAM_STATE_IDLE ->
  avail_in s = 0 ->
  avail_out s <> 0 ->
  finish_stream (squash_codec_get_funcs (codec s)) = Some fn ->
  exists out,
    squash_stream_finish squash_codec_get_funcs
      squash_buffer_stream_process squash_buffer_stream_finish s
    = ([mkCall FinishStream s (fst (fn s)) (snd (fn s))], out)
    /\ match snd (fn s) with
       | SQUASH_OK | SQUASH_END_OF_STREAM =>
           exists s', out = Returns SQUASH_OK s'
                      /\ state s' = SQUASH_STREAM_STATE_FINISHED
       | SQUASH_PROCESSING =>
           exists s', out = Returns SQUASH_PROCESSING s'
                      /\ state s' = SQUASH_STREAM_STATE_FINISHING
       | r =>
           exists s', out = Returns r s' /\ state s' = state (fst (fn s))
       end.
Proof.
  intros Hst Hin Hout Hfn.
  destruct s as [bo pr ni ai ti no ao to co op sty st ud dud ex].
  simpl in *. subst st ai.
  apply Z.eqb_neq in Hout.
  unfold squash_stream_finish, squash_stream_process_internal,
    saved_next_out, place_probe. simpl. rewrite Hout. simpl.
  unfold iteration, dispatch, check_sbb. simpl. rewrite Hfn.
  rewrite invoke_spec. simpl.
  unfold set_state. simpl.
  destruct (fn _) as [s1 r1]. simpl.
  destruct r1; simpl; eexists; (split; [reflexivity|]);
    eexists; (split; [reflexivity|]);
    apply epilogue_untouched.
Qed.

(** ** What the engine itself writes *)

Lemma engine_frame (s s' : Stream) op made r :
  engine s op = (made, Returns r s') ->
  untouched_by_engine (last_handed_back made s) s'
  /\ (avail_out s <> 0 ->
      next_out s' = next_out (last_handed_back made s)
      /\ avail_out s' = avail_out (last_handed_back made s)).
Proof.
  intros Heq.
  destruct (engine_cases s op) as [(H & _) | [H | (_ & _ & H)]];
    rewrite H in Heq; clear H.
  - inversion Heq; subst. unfold untouched_by_engine. simpl. tauto.
  - inversion Heq; subst. unfold untouched_by_engine. simpl. tauto.
  - apply conclude_returns in Heq.
    destruct Heq as (f & He & _ & Hcalls & ->).
    set (R := fun (x y : Stream) =>
                untouched_by_engine x y
                /\ (avail_out s <> 0 ->
                    next_out y = next_out x
                    /\ avail_out y = avail_out x)).
    assert (Hloop :
              match loop (Z.to_nat (op + 1 - operation_of_state (state s)))
                         (squash_codec_get_funcs (codec s)) op
                         (saved_next_out s)
                         (mkFrame (place_probe s) None
                                  (operation_of_state (state s)) []) with
              | Exits f' | Undefined f' =>
                  R (last_handed_back (calls f') s) (strm f')
              | Unfinished _ => True
              end).
    { apply (escalate_rule
               (fun f => R (last_handed_back (calls f) s) (strm f))).
      - intros g Hg _. unfold iteration.
        assert (Hd : R (last_handed_back
                          (calls (dispatch' (squash_codec_get_funcs (codec s))
                                            op g)) s)
                       (strm (dispatch' (squash_codec_get_funcs (codec s))
                                        op g))).
        { destruct (dispatch_calls (squash_codec_get_funcs (codec s)) op g)
            as [[-> ->] | (c & -> & _ & Hc)].
          - exact Hg.
          - unfold last_handed_back. rewrite map_app. simpl.
            rewrite last_last, Hc.
            unfold R, untouched_by_engine. tauto. }
        pose proof (interpret_calls
                      (check_sbb (saved_next_out s)
                         (dispatch' (squash_codec_get_funcs (codec s))
                                    op g))) as Hc.
        rewrite check_sbb_calls in Hc.
        pose proof (interpret_keeps
                      (R (last_handed_back
                            (calls (dispatch'
                                      (squash_codec_get_funcs (codec s))
                                      op g)) s))
                      (fun st x H => H)
                      (check_sbb (saved_next_out s)
                         (dispatch' (squash_codec_get_funcs (codec s))
                                    op g))) as Hk.
        rewrite check_sbb_strm in Hk. specialize (Hk Hd).
        destruct (interpret _) as [f'|f'|f']; rewrite Hc; exact Hk.
      - auto.
      - simpl. unfold R, last_handed_back, untouched_by_engine, place_probe.
        simpl. destruct (Z.eqb_spec (avail_out s) 0); simpl; tauto. }
    rewrite He in Hloop. rewrite Hcalls in Hloop.
    destruct Hloop as [Hu Ho].
    destruct (epilogue_untouched (avail_in s) (avail_out s)
                (saved_next_out s) (strm f))
      as (_ & E1 & E2 & E3 & E4 & E5 & E6).
    destruct (epilogue_fields (avail_in s) (avail_out s) (saved_next_out s)
                              (strm f)) as (_ & F1 & F2 & _).
    split.
    + unfold untouched_by_engine in *. unfold epilogue.
      destruct (negb (is_null (saved_next_out s))); simpl; tauto.
    + intros Hz. rewrite F1, F2. unfold saved_next_out.
      destruct (Z.eqb_spec (avail_out s) 0); [contradiction|]. simpl.
      exact (Ho Hz).
Qed.

(** X16.  The engine itself writes [state], the totals and, for the
    probe, the output cursor; nothing else.  After any call that returns
    the input cursor, the private data, the codec, the options, the
    stream type, the user data and the fields of the extending struct
    are as the last entry point called left them, or as the caller
    passed them if none was called; with room for output in the
    caller's buffer, so is the output cursor. *)
Theorem engine_writes_only_its_fields (which : Driver) (s s' : Stream)
    (made : list (Call Ext SquashObject)) (r : SquashStatus) :
  drive squash_codec_get_funcs squash_buffer_stream_process
        squash_buffer_stream_finish which s
  = (made, Returns r s') ->
  untouched_by_engine (last_handed_back made s) s'
  /\ (avail_out s <> 0 ->
      next_out s' = next_out (last_handed_back made s)
      /\ avail_out s' = avail_out (last_handed_back made s)).
Proof.
  rewrite drive_engine. apply engine_frame.
Qed.

(** ** Requests behind the state of the stream *)

(** X17.  A request for a level the stream has already left is turned
    down without any call and without a change to the stream: process on
    a stream that is Flushing, Finishing or Finished, flush on one that
    is Finishing or Finished, finish on one that is Finished.  The
    status is [SQUASH_STATE], except for a flush on a codec that has no
    flush entry point, which gets [SQUASH_INVALID_OPERATION]. *)
Theorem stale_request_turned_down (which : Driver) (s : Stream) :
  driver_operation which < operation_of_state (state s) ->
  drive squash_codec_get_funcs squash_buffer_stream_process
        squash_buffer_stream_finish which s
  = ([], Returns (match which,
                        flush_stream (squash_codec_get_funcs (codec s)) with
                  | Flush, None => SQUASH_INVALID_OPERATION
                  | _, _ => SQUASH_STATE
                  end) s).
Proof.
  intros Hlt. rewrite drive_engine.
  unfold squash_stream_process_internal.
  destruct which, (state s) eqn:Hst; simpl in Hlt; try lia; simpl;
    try reflexivity;
    destruct (flush_stream (squash_codec_get_funcs (codec s)));
    reflexivity.
Qed.

(** ** A finish request past the Flush level *)







End Properties.

(** * The engine on concrete streams *)

(** [sample_drive] is [drive] on the sample plug-ins; stated once, so
    that the runs below are computed on one side only. *)
Lemma sample_drive_unfold (which : Driver) (s : PlainStream) :
  sample_drive which s
  = drive sample_funcs sample_buffer_process sample_buffer_finish which s.
Proof. reflexivity. Qed.

Lemma sample_drive_finish (s : PlainStream) :
  sample_drive Finish s
  = squash_stream_finish sample_funcs sample_buffer_process
      sample_buffer_finish s.
Proof. reflexivity. Qed.

Lemma read_all_well_behaved (r : SquashStatus) : well_behaved (read_all r).
Proof.
  split; intros s; unfold read_all; simpl.
  - auto.
  - split; intros; lia.
Qed.

Lemma write_one_well_behaved (r : SquashStatus) : well_behaved (write_one r).
Proof.
  split; intros s; unfold write_one;
    destruct (Z.ltb_spec 0 (avail_out s)); simpl; auto;
    split; intros; lia.
Qed.

Lemma answer_well_behaved (r : SquashStatus) : well_behaved (answer r).
Proof.
  split; intros s; unfold answer; simpl; auto.
  split; intros; lia.
Qed.

Lemma sample_funcs_well_behaved (c : SquashCodec) :
  funcs_well_behaved (sample_funcs c).
Proof.
  unfold funcs_well_behaved, sample_funcs.
  destruct c as [[| |]|[| |]|]; simpl;
    auto using read_all_well_behaved, write_one_well_behaved,
      answer_well_behaved.
Qed.

(** ** Byte totals *)

(** C1, where it fails.  Codec 1 is well behaved and the caller's
    buffers are in order; the stream has taken in [SIZE_MAX] bytes so
    far.  The process call takes in one more byte, the caller sees
    [avail_in] go down by 1, and [total_in] goes from [SIZE_MAX] to 0. *)
Lemma total_in_wraps_around :
  let s := sample_stream 1%positive SQUASH_STREAM_STATE_IDLE
                         1 (Ptr (Region 2) 0) 8 SIZE_MAX 0 in
  funcs_well_behaved (sample_funcs (codec s))
  /\ counters_in_range s
  /\ exists made s',
      sample_drive Process s = (made, Returns SQUASH_OK s')
      /\ avail_in s - avail_in s' = 1
      /\ total_in s = SIZE_MAX
      /\ total_in s' = 0
      /\ total_in s' < total_in s.
Proof.
  split; [apply sample_funcs_well_behaved|].
  split; [vm_compute; intuition discriminate|].
  eexists. eexists. split; [vm_compute; reflexivity|].
  repeat split; reflexivity.
Qed.

Lemma totals_follow_cursors_witness :
  let s := sample_stream 1%positive SQUASH_STREAM_STATE_IDLE
                         5 (Ptr (Region 2) 0) 8 10 20 in
  funcs_well_behaved (sample_funcs (codec s))
  /\ well_behaved sample_buffer_process
  /\ well_behaved sample_buffer_finish
  /\ counters_in_range s
  /\ (avail_out s = 0 -> next_out s <> NULL)
  /\ exists made r s',
      sample_drive Process s = (made, Returns r s')
      /\ total_in s + (avail_in s - avail_in s') <= SIZE_MAX
      /\ total_out s + (avail_out s - avail_out s') <= SIZE_MAX
      /\ (avail_in s' <= avail_in s /\ avail_out s' <= avail_out s)
      /\ (total_in s' = total_in s + (avail_in s - avail_in s')
          /\ total_out s' = total_out s + (avail_out s - avail_out s'))
      /\ (total_in s <= total_in s' /\ total_out s <= total_out s').
Proof.
  intros s.
  assert (Hfuncs : funcs_well_behaved (sample_funcs (codec s)))
    by apply sample_funcs_well_behaved.
  assert (Hbp : well_behaved sample_buffer_process)
    by apply read_all_well_behaved.
  assert (Hbf : well_behaved sample_buffer_finish)
    by apply write_one_well_behaved.
  assert (Hrange : counters_in_range s)
    by (vm_compute; intuition discriminate).
  assert (Hnull : avail_out s = 0 -> next_out s <> NULL)
    by (intros H; discriminate H).
  repeat (split; [assumption|]).
  eexists. eexists. eexists.
  assert (Hrun : sample_drive Process s = _) by (vm_compute; reflexivity).
  split; [exact Hrun|].
  assert (Hin : total_in s + (avail_in s - 0) <= SIZE_MAX)
    by (vm_compute; discriminate).
  assert (Hout : total_out s + (avail_out s - 8) <= SIZE_MAX)
    by (vm_compute; discriminate).
  split; [exact Hin|]. split; [exact Hout|].
  exact (totals_follow_cursors sample_funcs sample_buffer_process
           sample_buffer_finish Process s _ _ _
           Hfuncs Hbp Hbf Hrange Hnull Hrun Hin Hout).
Defined.

(** ** The probe *)

(** C2, evaluated on the code.  The caller's [next_out] is [NULL] and
    [avail_out] is 0.  The process entry point of codec 3 is handed the
    probe (one byte of room at [output_sbb]) and writes into it.  The
    check of the probe is skipped, so the call returns [SQUASH_OK] rather
    than [SQUASH_BUFFER_FULL], and the probe is not taken back: the
    caller's [next_out] now points past the engine's local. *)
Theorem probe_kept_when_next_out_is_null :
  let s := sample_stream 3%positive SQUASH_STREAM_STATE_IDLE 1 NULL 0 0 0 in
  exists c s',
    sample_drive Process s = ([c], Returns SQUASH_OK s')
    /\ callee c = ProcessStream
    /\ next_out (passed c) = Ptr OutputSbb 0
    /\ avail_out (passed c) = 1
    /\ avail_out (handed_back c) = 0
    /\ next_out s' = Ptr OutputSbb 1
    /\ avail_out s' = 0.
Proof.
  eexists. eexists. split; [vm_compute; reflexivity|].
  repeat split; reflexivity.
Qed.

(** ** Finish on a codec without a finish entry point *)

(** C3, where it fails.  Codec 1 has a process entry point and neither
    flush nor finish, and the buffering adapter at hand would answer
    [SQUASH_OK].  A finish call makes one call, to the codec's process
    entry point, returns [SQUASH_INVALID_OPERATION] and leaves the stream
    in state Idle. *)
Lemma finish_on_process_only_codec :
  let s := sample_stream 1%positive SQUASH_STREAM_STATE_IDLE
                         1 (Ptr (Region 2) 0) 8 0 0 in
  process_stream (sample_funcs (codec s)) <> None
  /\ flush_stream (sample_funcs (codec s)) = None
  /\ finish_stream (sample_funcs (codec s)) = None
  /\ (forall x, snd (sample_buffer_finish x) = SQUASH_OK)
  /\ exists c s',
      sample_drive Finish s = ([c], Returns SQUASH_INVALID_OPERATION s')
      /\ callee c = ProcessStream
      /\ state s' = SQUASH_STREAM_STATE_IDLE.
Proof.
  split; [discriminate|]. split; [reflexivity|]. split; [reflexivity|].
  split.
  - intros x. unfold sample_buffer_finish, write_one.
    destruct (0 <? avail_out x); reflexivity.
  - eexists. eexists. split; [vm_compute; reflexivity|].
    split; reflexivity.
Qed.

Lemma finish_without_finish_entry_witness :
  let s := sample_stream 1%positive SQUASH_STREAM_STATE_IDLE
                         1 (Ptr (Region 2) 0) 8 0 0 in
  process_stream (sample_funcs (codec s)) = Some (read_all SQUASH_OK)
  /\ finish_stream (sample_funcs (codec s)) = None
  /\ exists made out,
      sample_drive Finish s = (made, out)
      /\ only_process_called made
      /\ (forall c, In c made -> callee c <> BufferStreamFinish)
      /\ (forall r s', out = Returns r s' ->
                       finish_refused made r /\ r <> SQUASH_OK).
Proof.
  intros s.
  assert (Hp : process_stream (sample_funcs (codec s))
               = Some (read_all SQUASH_OK)) by reflexivity.
  assert (Hfin : finish_stream (sample_funcs (codec s)) = None)
    by reflexivity.
  split; [exact Hp|]. split; [exact Hfin|].
  eexists. eexists.
  assert (Hrun : sample_drive Finish s = _) by (vm_compute; reflexivity).
  split; [exact Hrun|].
  exact (finish_without_finish_entry sample_funcs sample_buffer_process
           sample_buffer_finish s _ _ _ Hp Hfin Hrun).
Defined.

(** ** A finish request past the Flush level *)


(** ** A stream in state Finished *)

(** C6, where it fails.  Codec 1 has no flush entry point; a flush call
    on a stream of that codec in state Finished returns
    [SQUASH_INVALID_OPERATION], not [SQUASH_STATE]. *)
Lemma flush_on_finished_stream_without_flush_entry :
  let s := sample_stream 1%positive SQUASH_STREAM_STATE_FINISHED
                         0 (Ptr (Region 2) 0) 8 3 2 in
  state s = SQUASH_STREAM_STATE_FINISHED
  /\ sample_drive Flush s = ([], Returns SQUASH_INVALID_OPERATION s)
  /\ SQUASH_INVALID_OPERATION <> SQUASH_STATE.
Proof.
  split; [reflexivity|]. split; [vm_compute; reflexivity | discriminate].
Qed.

Lemma finished_stream_rejects_witness :
  let s := sample_stream 2%positive SQUASH_STREAM_STATE_FINISHED
                         0 (Ptr (Region 2) 0) 8 3 2 in
  state s = SQUASH_STREAM_STATE_FINISHED
  /\ sample_drive Process s = ([], Returns SQUASH_STATE s)
  /\ sample_drive Finish s = ([], Returns SQUASH_STATE s)
  /\ sample_drive Flush s = ([], Returns SQUASH_STATE s).
Proof.
  intros s.
  assert (Hst : state s = SQUASH_STREAM_STATE_FINISHED) by reflexivity.
  split; [exact Hst|].
  exact (finished_stream_rejects sample_funcs sample_buffer_process
           sample_buffer_finish s Hst).
Defined.

Lemma flush_without_flush_entry_witness :
  let s := sample_stream 1%positive SQUASH_STREAM_STATE_RUNNING
                         4 (Ptr (Region 2) 0) 8 3 2 in
  flush_stream (sample_funcs (codec s)) = None
  /\ sample_drive Flush s = ([], Returns SQUASH_INVALID_OPERATION s).
Proof.
  intros s.
  assert (Hnone : flush_stream (sample_funcs (codec s)) = None)
    by reflexivity.
  split; [exact Hnone|].
  exact (flush_without_flush_entry sample_funcs sample_buffer_process
           sample_buffer_finish s Hnone).
Defined.

(** ** [SQUASH_END_OF_STREAM] from the finish entry point *)

(** C8, where it fails.  The caller gives codec 2 no room for output
    ([avail_out] is 0, [next_out] is in order).  The finish entry point
    writes its trailer byte into the probe and returns
    [SQUASH_END_OF_STREAM]; the call returns [SQUASH_BUFFER_FULL] and the
    stream is not in state Finished. *)
Lemma finish_end_of_stream_with_probe_written :
  let s := sample_stream 2%positive SQUASH_STREAM_STATE_FINISHING
                         0 (Ptr (Region 2) 0) 0 0 0 in
  exists c s',
    sample_drive Finish s = ([c], Returns SQUASH_BUFFER_FULL s')
    /\ callee c = FinishStream
    /\ returned c = SQUASH_END_OF_STREAM
    /\ avail_out (handed_back c) = 0
    /\ state s' = SQUASH_STREAM_STATE_FINISHING.
Proof.
  eexists. eexists. split; [vm_compute; reflexivity|].
  repeat split; reflexivity.
Qed.

Lemma finish_end_of_stream_is_ok_witness :
  let s := sample_stream 2%positive SQUASH_STREAM_STATE_IDLE
                         4 (Ptr (Region 2) 0) 8 0 0 in
  exists made r s' c,
    sample_drive Finish s = (made, Returns r s')
    /\ In c made
    /\ callee c = FinishStream
    /\ returned c = SQUASH_END_OF_STREAM
    /\ ~ (avail_out s = 0 /\ avail_out (handed_back c) = 0)
    /\ r = SQUASH_OK
    /\ state s' = SQUASH_STREAM_STATE_FINISHED.
Proof.
  intros s.
  eexists. eexists. eexists. eexists.
  assert (Hrun : squash_stream_finish sample_funcs sample_buffer_process
                   sample_buffer_finish s = _)
    by (vm_compute; reflexivity).
  split; [rewrite sample_drive_finish; exact Hrun|].
  match goal with
  | |- ?G /\ _ => assert (Hin : G) by (right; left; reflexivity)
  end.
  split; [exact Hin|].
  match goal with |- ?G /\ _ => assert (Hcallee : G) by reflexivity end.
  split; [exact Hcallee|].
  match goal with |- ?G /\ _ => assert (Hret : G) by reflexivity end.
  split; [exact Hret|].
  match goal with
  | |- ?G /\ _ => assert (Hprobe : G) by (intros [H _]; discriminate H)
  end.
  split; [exact Hprobe|].
  exact (finish_end_of_stream_is_ok sample_funcs sample_buffer_process
           sample_buffer_finish s _ _ _ _ Hrun Hin Hcallee Hret Hprobe).
Defined.

(** ** The status the loop interprets *)

(** A flush of codec 2 that asks to be called again leaves the stream
    in state Flushing; the finish call that follows reads [res] before
    anything was assigned to it. *)
Lemma finish_from_flushing_reads_unassigned_res_witness :
  let s := sample_stream 2%positive SQUASH_STREAM_STATE_IDLE
                         4 (Ptr (Region 2) 0) 8 0 0 in
  exists made s1,
    sample_drive Flush s = (made, Returns SQUASH_PROCESSING s1)
    /\ state s1 = SQUASH_STREAM_STATE_FLUSHING
    /\ sample_drive Finish s1 = ([], ReadsIndeterminate (place_probe s1)).
Proof.
  intros s.
  eexists. eexists.
  split; [vm_compute; reflexivity|].
  match goal with |- ?G /\ _ => assert (Hst : G) by reflexivity end.
  split; [exact Hst|].
  exact (finish_from_flushing_reads_unassigned_res sample_funcs
           sample_buffer_process sample_buffer_finish _ Hst).
Defined.

(** * Beyond the documented scenarios, on concrete streams *)

Lemma sample_plugins_satisfy (Q : StreamFunc unit unit -> Prop) :
  (forall r, Q (read_all r)) ->
  (forall r, Q (write_one r)) ->
  (forall r, Q (answer r)) ->
  forall c,
    plugins_satisfy Q (sample_funcs c) sample_buffer_process
                    sample_buffer_finish.
Proof.
  intros Hread Hwrite Hanswer c.
  unfold plugins_satisfy, sample_funcs, sample_buffer_process,
    sample_buffer_finish.
  destruct c as [[| |]|[| |]|]; simpl;
    repeat split; try (intros fn H; inversion H; subst); auto.
Qed.

Lemma sample_plugins_keep_totals (c : SquashCodec) :
  plugins_satisfy keeps_totals (sample_funcs c) sample_buffer_process
                  sample_buffer_finish.
Proof.
  apply sample_plugins_satisfy; intros r.
  - apply read_all_well_behaved.
  - apply write_one_well_behaved.
  - apply answer_well_behaved.
Qed.

Lemma sample_plugins_keep_state (c : SquashCodec) :
  plugins_satisfy keeps_state (sample_funcs c) sample_buffer_process
                  sample_buffer_finish.
Proof.
  apply sample_plugins_satisfy; intros r s;
    unfold read_all, write_one, answer; simpl; auto.
  destruct (0 <? avail_out s); simpl; auto.
Qed.

Lemma sample_plugins_keep_owner_fields (c : SquashCodec) :
  plugins_satisfy keeps_owner_fields (sample_funcs c) sample_buffer_process
                  sample_buffer_finish.
Proof.
  apply sample_plugins_satisfy; intros r s;
    unfold read_all, write_one, answer; simpl; auto.
  destruct (0 <? avail_out s); simpl; auto.
Qed.

Lemma driver_call_returns_witness :
  let s := sample_stream 2%positive SQUASH_STREAM_STATE_RUNNING
                         4 (Ptr (Region 2) 0) 8 0 0 in
  ~ (Finish = Finish /\ state s = SQUASH_STREAM_STATE_FLUSHING)
  /\ exists made r s', sample_drive Finish s = (made, Returns r s').
Proof.
  intros s.
  assert (Hnot : ~ (Finish = Finish
                    /\ state s = SQUASH_STREAM_STATE_FLUSHING))
    by (intros [_ H]; discriminate H).
  split; [exact Hnot|].
  exact (driver_call_returns sample_funcs sample_buffer_process
           sample_buffer_finish Finish s Hnot).
Defined.

Lemma status_tells_state_witness :
  let s := sample_stream 2%positive SQUASH_STREAM_STATE_IDLE
                         4 (Ptr (Region 2) 0) 8 0 0 in
  exists made s',
    sample_drive Flush s = (made, Returns SQUASH_PROCESSING s')
    /\ state_after Flush SQUASH_PROCESSING (state s').
Proof.
  intros s. eexists. eexists.
  assert (Hrun : sample_drive Flush s = _) by (vm_compute; reflexivity).
  split; [exact Hrun|].
  exact (status_tells_state sample_funcs sample_buffer_process
           sample_buffer_finish Flush s _ _ _ Hrun).
Defined.

Lemma calls_belong_to_request_witness :
  let s := sample_stream 2%positive SQUASH_STREAM_STATE_IDLE
                         4 (Ptr (Region 2) 0) 8 0 0 in
  exists made out,
    sample_drive Finish s = (made, out)
    /\ List.length made = 2%nat
    /\ Forall (call_expected (sample_funcs (codec s)) Finish) made.
Proof.
  intros s. eexists. eexists.
  assert (Hrun : drive sample_funcs sample_buffer_process
                       sample_buffer_finish Finish s = _)
    by (vm_compute; reflexivity).
  split; [rewrite sample_drive_unfold; exact Hrun|]. split; [reflexivity|].
  exact (calls_belong_to_request sample_funcs sample_buffer_process
           sample_buffer_finish Finish s _ _ Hrun).
Defined.

Lemma calls_escalate_witness :
  let s := sample_stream 2%positive SQUASH_STREAM_STATE_IDLE
                         4 (Ptr (Region 2) 0) 8 0 0 in
  exists made out,
    sample_drive Finish s = (made, out)
    /\ List.length made = 2%nat
    /\ StronglySorted Z.lt (map (fun c => callee_level (callee c)) made).
Proof.
  intros s. eexists. eexists.
  assert (Hrun : drive sample_funcs sample_buffer_process
                       sample_buffer_finish Finish s = _)
    by (vm_compute; reflexivity).
  split; [rewrite sample_drive_unfold; exact Hrun|]. split; [reflexivity|].
  exact (calls_escalate sample_funcs sample_buffer_process
           sample_buffer_finish Finish s _ _ Hrun).
Defined.

Lemma probe_never_shown_witness :
  let s := sample_stream 2%positive SQUASH_STREAM_STATE_FINISHING
                         0 (Ptr (Region 2) 0) 0 0 0 in
  avail_out s = 0
  /\ next_out s <> NULL
  /\ exists made r s',
      sample_drive Finish s = (made, Returns r s')
      /\ next_out s' = next_out s /\ avail_out s' = 0.
Proof.
  intros s.
  assert (Hz : avail_out s = 0) by reflexivity.
  assert (Hnull : next_out s <> NULL) by discriminate.
  split; [exact Hz|]. split; [exact Hnull|].
  eexists. eexists. eexists.
  assert (Hrun : sample_drive Finish s = _) by (vm_compute; reflexivity).
  split; [exact Hrun|].
  exact (probe_never_shown sample_funcs sample_buffer_process
           sample_buffer_finish Finish s _ _ _ Hz Hnull Hrun).
Defined.

Lemma probe_written_returns_buffer_full_witness :
  let s := sample_stream 2%positive SQUASH_STREAM_STATE_FINISHING
                         0 (Ptr (Region 2) 0) 0 0 0 in
  avail_out s = 0
  /\ next_out s <> NULL
  /\ exists made r s' c,
      sample_drive Finish s = (made, Returns r s')
      /\ In c made
      /\ avail_out (handed_back c) = 0
      /\ r = SQUASH_BUFFER_FULL.
Proof.
  intros s.
  assert (Hz : avail_out s = 0) by reflexivity.
  assert (Hnull : next_out s <> NULL) by discriminate.
  split; [exact Hz|]. split; [exact Hnull|].
  eexists. eexists. eexists. eexists.
  assert (Hrun : sample_drive Finish s = _) by (vm_compute; reflexivity).
  split; [exact Hrun|].
  match goal with
  | |- ?G /\ _ => assert (Hin : G) by (left; reflexivity)
  end.
  split; [exact Hin|].
  match goal with |- ?G /\ _ => assert (Hc : G) by reflexivity end.
  split; [exact Hc|].
  exact (probe_written_returns_buffer_full sample_funcs
           sample_buffer_process sample_buffer_finish Finish s _ _ _ _
           Hz Hnull Hrun Hin Hc).
Defined.

Lemma totals_move_modulo_witness :
  let s := sample_stream 1%positive SQUASH_STREAM_STATE_IDLE
                         1 (Ptr (Region 2) 0) 8 SIZE_MAX 0 in
  plugins_satisfy keeps_totals (sample_funcs (codec s))
                  sample_buffer_process sample_buffer_finish
  /\ in_size_t (total_in s)
  /\ in_size_t (total_out s)
  /\ exists made r s',
      sample_drive Process s = (made, Returns r s')
      /\ total_in s' = size_wrap (total_in s + (avail_in s - avail_in s'))
      /\ total_out s'
         = size_wrap (total_out s + (avail_out s - avail_out s')).
Proof.
  intros s.
  assert (Hplug : plugins_satisfy keeps_totals (sample_funcs (codec s))
                    sample_buffer_process sample_buffer_finish)
    by apply sample_plugins_keep_totals.
  assert (Rti : in_size_t (total_in s))
    by (vm_compute; intuition discriminate).
  assert (Rto : in_size_t (total_out s))
    by (vm_compute; intuition discriminate).
  split; [exact Hplug|]. split; [exact Rti|]. split; [exact Rto|].
  eexists. eexists. eexists.
  assert (Hrun : sample_drive Process s = _) by (vm_compute; reflexivity).
  split; [exact Hrun|].
  exact (totals_move_modulo sample_funcs sample_buffer_process
           sample_buffer_finish Process s _ _ _ Hplug Rti Rto Hrun).
Defined.

Lemma process_without_input_is_noop_witness :
  let s := sample_stream 1%positive SQUASH_STREAM_STATE_IDLE
                         0 (Ptr (Region 2) 0) 0 7 9 in
  state s = SQUASH_STREAM_STATE_IDLE
  /\ avail_in s = 0
  /\ in_size_t (total_in s)
  /\ in_size_t (total_out s)
  /\ (avail_out s = 0 -> next_out s <> NULL)
  /\ sample_drive Process s = ([], Returns SQUASH_OK s).
Proof.
  intros s.
  assert (Hst : state s = SQUASH_STREAM_STATE_IDLE) by reflexivity.
  assert (Hin : avail_in s = 0) by reflexivity.
  assert (Rti : in_size_t (total_in s))
    by (vm_compute; intuition discriminate).
  assert (Rto : in_size_t (total_out s))
    by (vm_compute; intuition discriminate).
  assert (Hnull : avail_out s = 0 -> next_out s <> NULL)
    by (intros _; discriminate).
  repeat (split; [assumption|]).
  exact (process_without_input_is_noop sample_funcs sample_buffer_process
           sample_buffer_finish s Hst Hin Rti Rto Hnull).
Defined.

Lemma failure_comes_from_last_call_witness :
  let s := sample_stream 1%positive SQUASH_STREAM_STATE_IDLE
                         4 (Ptr (Region 2) 0) 8 0 0 in
  exists made s',
    drive faulty_funcs sample_buffer_process sample_buffer_finish Finish s
    = (made, Returns (SQUASH_FAILURE (-5)) s')
    /\ exists earlier c,
        made = earlier ++ [c]
        /\ returned c = SQUASH_FAILURE (-5)
        /\ state s' = state (handed_back c)
        /\ next_in s' = next_in (handed_back c)
        /\ avail_in s' = avail_in (handed_back c).
Proof.
  intros s. eexists. eexists.
  assert (Hrun : drive faulty_funcs sample_buffer_process
                       sample_buffer_finish Finish s = _)
    by (vm_compute; reflexivity).
  split; [exact Hrun|].
  exact (failure_comes_from_last_call faulty_funcs sample_buffer_process
           sample_buffer_finish Finish s _ _ _ Hrun).
Defined.

Lemma ended_stream_stays_ended_witness :
  let s := sample_stream 2%positive SQUASH_STREAM_STATE_IDLE
                         4 (Ptr (Region 2) 0) 8 0 0 in
  exists made s',
    sample_drive Finish s = (made, Returns SQUASH_OK s')
    /\ (SQUASH_OK = SQUASH_END_OF_STREAM
        \/ (Finish = Finish /\ SQUASH_OK = SQUASH_OK))
    /\ exists r',
        sample_drive Process s' = ([], Returns r' s')
        /\ (r' = SQUASH_STATE \/ r' = SQUASH_INVALID_OPERATION).
Proof.
  intros s. eexists. eexists.
  assert (Hrun : drive sample_funcs sample_buffer_process
                       sample_buffer_finish Finish s = _)
    by (vm_compute; reflexivity).
  split; [rewrite sample_drive_unfold; exact Hrun|].
  assert (Hend : SQUASH_OK = SQUASH_END_OF_STREAM
                 \/ (Finish = Finish /\ SQUASH_OK = SQUASH_OK))
    by (right; split; reflexivity).
  split; [exact Hend|].
  rewrite sample_drive_unfold.
  exact (ended_stream_stays_ended sample_funcs sample_buffer_process
           sample_buffer_finish Finish Process s _ _ _ Hrun Hend).
Defined.

Lemma session_without_flush_entry_witness :
  let s := sample_stream 1%positive SQUASH_STREAM_STATE_IDLE
                         4 (Ptr (Region 2) 0) 8 0 0 in
  let acts := [Drive Process; Supply (Ptr (Region 1) 4) 3 (Ptr (Region 2) 0) 8;
               Drive Flush; Drive Finish; Drive Process] in
  plugins_satisfy keeps_state (sample_funcs (codec s))
                  sample_buffer_process sample_buffer_finish
  /\ flush_stream (sample_funcs (codec s)) = None
  /\ state s <> SQUASH_STREAM_STATE_FLUSHING
  /\ exists s',
      session sample_funcs sample_buffer_process sample_buffer_finish acts s
      = Some s'
      /\ state s' <> SQUASH_STREAM_STATE_FLUSHING
      /\ codec s' = codec s.
Proof.
  intros s acts.
  assert (Hplug : plugins_satisfy keeps_state (sample_funcs (codec s))
                    sample_buffer_process sample_buffer_finish)
    by apply sample_plugins_keep_state.
  assert (Hnone : flush_stream (sample_funcs (codec s)) = None)
    by reflexivity.
  assert (Hst : state s <> SQUASH_STREAM_STATE_FLUSHING) by discriminate.
  split; [exact Hplug|]. split; [exact Hnone|]. split; [exact Hst|].
  exact (session_without_flush_entry sample_funcs sample_buffer_process
           sample_buffer_finish acts s Hplug Hnone Hst).
Defined.

Lemma destroy_after_session_witness :
  let s := with_user_data (Ptr (Region 5) 0) (Ptr (Region 6) 0)
             (sample_stream 2%positive SQUASH_STREAM_STATE_IDLE
                            4 (Ptr (Region 2) 0) 8 0 0) in
  let acts := [Drive Process; Drive Finish] in
  (forall c, plugins_satisfy keeps_owner_fields (sample_funcs c)
                             sample_buffer_process sample_buffer_finish)
  /\ exists s',
      session sample_funcs sample_buffer_process sample_buffer_finish acts s
      = Some s'
      /\ state s' = SQUASH_STREAM_STATE_FINISHED
      /\ snd (squash_stream_destroy sample_object_unref s')
         = snd (squash_stream_destroy sample_object_unref s).
Proof.
  intros s acts.
  assert (Hplug : forall c,
             plugins_satisfy keeps_owner_fields (sample_funcs c)
                             sample_buffer_process sample_buffer_finish)
    by apply sample_plugins_keep_owner_fields.
  split; [exact Hplug|]. eexists.
  assert (Hrun : session sample_funcs sample_buffer_process
                         sample_buffer_finish acts s = _)
    by (vm_compute; reflexivity).
  split; [exact Hrun|]. split; [reflexivity|].
  exact (destroy_after_session sample_funcs sample_buffer_process
           sample_buffer_finish sample_object_unref acts s _ Hplug Hrun).
Defined.

Lemma destroy_of_initialised_stream_witness :
  let memory := sample_stream 1%positive SQUASH_STREAM_STATE_FINISHED
                              7 NULL 7 7 7 in
  let opts := Ptr (Region 9) 0 in
  let acts := [Supply (Ptr (Region 1) 0) 4 (Ptr (Region 2) 0) 8;
               Drive Process; Drive Finish] in
  (forall c, plugins_satisfy keeps_owner_fields (sample_funcs c)
                             sample_buffer_process sample_buffer_finish)
  /\ exists s',
      session sample_funcs sample_buffer_process sample_buffer_finish acts
              (squash_stream_init sample_object_init sample_object_ref
                 memory 1%positive SQUASH_STREAM_COMPRESS opts NULL)
      = Some s'
      /\ snd (squash_stream_destroy sample_object_unref s')
         = [ObjectUnref opts; ObjectDestroy].
Proof.
  intros memory opts acts.
  assert (Hplug : forall c,
             plugins_satisfy keeps_owner_fields (sample_funcs c)
                             sample_buffer_process sample_buffer_finish)
    by apply sample_plugins_keep_owner_fields.
  split; [exact Hplug|]. eexists.
  assert (Hrun : session sample_funcs sample_buffer_process
                         sample_buffer_finish acts
                         (squash_stream_init sample_object_init
                            sample_object_ref memory 1%positive
                            SQUASH_STREAM_COMPRESS opts NULL) = _)
    by (vm_compute; reflexivity).
  split; [exact Hrun|].
  exact (destroy_of_initialised_stream sample_funcs sample_buffer_process
           sample_buffer_finish sample_object_init sample_object_ref
           sample_object_unref acts memory _ 1%positive
           SQUASH_STREAM_COMPRESS opts NULL Hplug Hrun).
Defined.

Lemma new_goes_through_new_with_options_witness :
  exists s,
    squash_stream_new sample_get_codec sample_options_newv
      sample_create_stream "copy"%string SQUASH_STREAM_COMPRESS ["level"%string; "9"%string]
    = Some s
    /\ exists codec_real,
        sample_get_codec "copy"%string = Some codec_real
        /\ sample_options_newv codec_real ["level"%string; "9"%string] <> NULL
        /\ squash_stream_new_with_options sample_get_codec
             sample_create_stream "copy"%string SQUASH_STREAM_COMPRESS
             (sample_options_newv codec_real ["level"%string; "9"%string])
           = Some s.
Proof.
  eexists.
  assert (Hnew : squash_stream_new sample_get_codec sample_options_newv
                   sample_create_stream "copy"%string SQUASH_STREAM_COMPRESS
                   ["level"%string; "9"%string] = _)
    by (vm_compute; reflexivity).
  split; [exact Hnew|].
  exact (new_goes_through_new_with_options sample_get_codec
           sample_options_newv sample_create_stream "copy"%string
           SQUASH_STREAM_COMPRESS ["level"%string; "9"%string] _ Hnew).
Defined.

Lemma finish_after_all_input_witness :
  let s := sample_stream 2%positive SQUASH_STREAM_STATE_IDLE
                         0 (Ptr (Region 2) 0) 8 4 0 in
  let fn := write_one SQUASH_END_OF_STREAM in
  state s = SQUASH_STREAM_STATE_IDLE
  /\ avail_in s = 0
  /\ avail_out s <> 0
  /\ finish_stream (sample_funcs (codec s)) = Some fn
  /\ exists out,
      sample_drive Finish s
      = ([mkCall FinishStream s (fst (fn s)) (snd (fn s))], out)
      /\ exists s', out = Returns SQUASH_OK s'
                    /\ state s' = SQUASH_STREAM_STATE_FINISHED.
Proof.
  intros s fn.
  assert (Hst : state s = SQUASH_STREAM_STATE_IDLE) by reflexivity.
  assert (Hin : avail_in s = 0) by reflexivity.
  assert (Hout : avail_out s <> 0) by discriminate.
  assert (Hfn : finish_stream (sample_funcs (codec s)) = Some fn)
    by reflexivity.
  repeat (split; [assumption|]).
  exact (finish_after_all_input sample_funcs sample_buffer_process
           sample_buffer_finish s fn Hst Hin Hout Hfn).
Defined.

Lemma engine_writes_only_its_fields_witness :
  let s := sample_stream 2%positive SQUASH_STREAM_STATE_IDLE
                         4 (Ptr (Region 2) 0) 8 0 0 in
  exists made r s',
    sample_drive Finish s = (made, Returns r s')
    /\ next_in (last_handed_back made s) = Ptr (Region 1) 4
    /\ untouched_by_engine (last_handed_back made s) s'
    /\ (avail_out s <> 0 ->
        next_out s' = next_out (last_handed_back made s)
        /\ avail_out s' = avail_out (last_handed_back made s)).
Proof.
  intros s. eexists. eexists. eexists.
  assert (Hrun : drive sample_funcs sample_buffer_process
                       sample_buffer_finish Finish s = _)
    by (vm_compute; reflexivity).
  split; [rewrite sample_drive_unfold; exact Hrun|]. split; [reflexivity|].
  exact (engine_writes_only_its_fields sample_funcs sample_buffer_process
           sample_buffer_finish Finish s _ _ _ Hrun).
Defined.

Lemma stale_request_turned_down_witness :
  let s := sample_stream 2%positive SQUASH_STREAM_STATE_FLUSHING
                         4 (Ptr (Region 2) 0) 8 0 0 in
  driver_operation Process < operation_of_state (state s)
  /\ sample_drive Process s = ([], Returns SQUASH_STATE s).
Proof.
  intros s.
  assert (Hlt : driver_operation Process < operation_of_state (state s))
    by reflexivity.
  split; [exact Hlt|].
  exact (stale_request_turned_down sample_funcs sample_buffer_process
           sample_buffer_finish Process s Hlt).
Defined.
